(** * Bank statement tool: extraction and ledger classification

    A shallow embedding of [bank_statement_tool.py]: the text normaliser
    [clean_text], the three ledger matchers, the line parser
    [parse_transaction_line], the document walker [extract_transactions] and
    the mapping composition of the "Extract & Apply Mapping" handler.

    Modelling conventions.
    - A Python [str] is a list of 8-bit characters, read as the code points
      0..255 (Latin-1).  [lower], [strip] and the regular-expression classes
      are the Python ones restricted to that range.
    - A Python [float] is an IEEE 754 binary64 number: [spec_float] with
      the operations of [SpecFloat] at precision 53 and exponent bound 1024,
      rounding to nearest, ties to even.
    - [fuzz.partial_ratio] belongs to an external library; it is a parameter
      of the development.  Its scores are only compared, so they are taken
      as the rationals they are ([Q]).
    - A [dict] iterated in insertion order is an association list. *)

From Stdlib Require Import Ascii String.
From Stdlib Require Import SpecFloat.
From Stdlib Require Import List ZArith QArith Bool Lia PeanoNat.
Import ListNotations.

#[local] Open Scope list_scope.

(** ** Text *)

Definition str := list ascii.

(** String literals. *)
Definition lit (s : string) : str := list_ascii_of_string s.

Definition code (c : ascii) : N := N_of_ascii c.

Definition between (lo hi : N) (c : ascii) : bool :=
  (N.leb lo (code c) && N.leb (code c) hi)%bool.

(** [str.isspace] on code points below 256. *)
Definition is_space (c : ascii) : bool :=
  (between 9 13 c || between 28 32 c || N.eqb (code c) 133 || N.eqb (code c) 160)%bool.

(** The regular-expression class [\d] on code points below 256. *)
Definition is_digit (c : ascii) : bool := between 48 57 c.

Definition is_upper (c : ascii) : bool :=
  (between 65 90 c || (between 192 222 c && negb (N.eqb (code c) 215)))%bool.

Definition lower_char (c : ascii) : ascii :=
  if is_upper c then ascii_of_N (code c + 32) else c.

(** [s.lower()] *)
Definition lower (s : str) : str := map lower_char s.

Fixpoint lstrip (s : str) : str :=
  match s with
  | [] => []
  | c :: s' => if is_space c then lstrip s' else s
  end.

Definition rstrip (s : str) : str := rev (lstrip (rev s)).

(** [s.strip()] *)
Definition strip (s : str) : str := rstrip (lstrip s).

Definition ascii_eqb (a b : ascii) : bool := Ascii.eqb a b.

Fixpoint str_eqb (a b : str) : bool :=
  match a, b with
  | [], [] => true
  | x :: a', y :: b' => (ascii_eqb x y && str_eqb a' b')%bool
  | _, _ => false
  end.

Fixpoint startswith (p s : str) : bool :=
  match p, s with
  | [], _ => true
  | x :: p', y :: s' => (ascii_eqb x y && startswith p' s')%bool
  | _ :: _, [] => false
  end.

(** [sub in s] *)
Fixpoint contains (sub s : str) : bool :=
  (startswith sub s ||
   match s with
   | [] => false
   | _ :: s' => contains sub s'
   end)%bool.

(** Truth value of a string or of a list: non-empty. *)
Definition nonempty {A : Type} (l : list A) : bool :=
  match l with [] => false | _ :: _ => true end.

Definition newline : ascii := ascii_of_N 10.

(** [s.split("\n")], with the current line accumulated in [cur]. *)
Fixpoint split_lines_acc (cur : str) (s : str) : list str :=
  match s with
  | [] => [rev cur]
  | c :: s' =>
      if ascii_eqb c newline then rev cur :: split_lines_acc [] s'
      else split_lines_acc (c :: cur) s'
  end.

Definition split_lines (s : str) : list str := split_lines_acc [] s.

(** [s.replace(",", "")] *)
Definition remove_commas (s : str) : str :=
  filter (fun c => negb (ascii_eqb c ","%char)) s.

(** Greedy [c*] for a character class: the longest prefix in the class and
    what follows it. *)
Fixpoint span (p : ascii -> bool) (s : str) : str * str :=
  match s with
  | [] => ([], [])
  | c :: s' =>
      if p c then let (run, rest) := span p s' in (c :: run, rest)
      else ([], s)
  end.

(** The anchor [$] without MULTILINE: the end of the string, or just before
    a newline that ends the string. *)
Definition at_end (s : str) : bool :=
  match s with
  | [] => true
  | [c] => ascii_eqb c newline
  | _ => false
  end.

(** ** Numbers *)

Definition digit_val (c : ascii) : Z := Z.of_N (code c) - 48.

Definition digits_val (s : str) : Z :=
  fold_left (fun acc c => 10 * acc + digit_val c)%Z s 0%Z.

Definition float := spec_float.

Definition float_div : float -> float -> float := SFdiv 53 1024.
Definition float_sub : float -> float -> float := SFsub 53 1024.
Definition float_neg : float -> float := SFopp.

(** [x < y] and [x == y] on floats. *)
Definition float_lt : float -> float -> bool := SFltb.
Definition float_eq : float -> float -> bool := SFeqb.

(** [0.0] *)
Definition zero : float := S754_zero false.

(** An integer as the operand of a division: mantissa [n], exponent 0. *)
Definition float_of_Z (n : Z) : float :=
  match n with
  | Z0 => S754_zero false
  | Zpos p => S754_finite false p 0
  | Zneg p => S754_finite true p 0
  end.

(** [float(s)] for a decimal literal [digits.digits], the only shape the
    balance pattern lets through: the float nearest to the digits read as
    an integer over ten to the number of fraction digits.  Python accepts
    more syntaxes and raises ValueError on the rest; neither can reach this
    call. *)
Definition float_of (s : str) : float :=
  let (ip, rest) := span is_digit s in
  let fp := tl rest in
  float_div (float_of_Z (digits_val (ip ++ fp)))
            (float_of_Z (10 ^ Z.of_nat (length fp))).

(** The integer nearest to [n / d], ties to even, for [0 <= n] and [0 < d]. *)
Definition round_half_even_div (n d : Z) : Z :=
  let (k, r) := Z.div_eucl n d in
  match (2 * r ?= d)%Z with
  | Lt => k
  | Gt => (k + 1)%Z
  | Eq => if Z.even k then k else (k + 1)%Z
  end.

(** [round(x, 2)]: the exact value of [x] is rounded to a whole number of
    hundredths, ties to even, and the float nearest to that decimal is
    returned; zeros, infinities and NaN are returned as they are, and so is
    the sign of a number that rounds to zero. *)
Definition round2 (x : float) : float :=
  match x with
  | S754_finite s m e =>
      let hundredths :=
        match e with
        | Zneg p => round_half_even_div (Zpos m * 100) (2 ^ Zpos p)
        | _ => (Zpos m * 100 * 2 ^ e)%Z
        end in
      match hundredths with
      | Zpos p => float_div (S754_finite s p 0) (float_of_Z 100)
      | _ => S754_zero s
      end
  | _ => x
  end.

(** ** Regular expressions of the tool *)

(** [^(\d{2}-\d{2}-\d{2,4})] with [re.match]: group 1.  The greedy
    [\d{2,4}] takes up to two more digits after the first two. *)
Definition match_date_prefix (line : str) : option str :=
  match line with
  | d1 :: d2 :: h1 :: m1 :: m2 :: h2 :: y1 :: y2 :: more =>
      if (is_digit d1 && is_digit d2 && ascii_eqb h1 "-" &&
          is_digit m1 && is_digit m2 && ascii_eqb h2 "-" &&
          is_digit y1 && is_digit y2)%bool
      then Some ([d1; d2; h1; m1; m2; h2; y1; y2] ++ fst (span is_digit (firstn 2 more)))
      else None
  | _ => None
  end.

Definition is_digit_or_comma (c : ascii) : bool :=
  (is_digit c || ascii_eqb c ",")%bool.

(** [(Cr|Dr)] at the head of [s]: the alternative taken and what follows. *)
Definition polarity_suffix (s : str) : option (str * str) :=
  if startswith (lit "Cr") s then Some (lit "Cr", skipn 2 s)
  else if startswith (lit "Dr") s then Some (lit "Dr", skipn 2 s)
  else None.

(** [(\d[\d,]*\.\d{2})(Cr|Dr)?$] tried at the head of [s]: groups 1 and 2.
    [[\d,]*] is greedy and what must follow it, a dot, is outside its
    class, so no shorter run can succeed; the optional group is tried
    first and given up when [$] fails after it. *)
Definition match_balance_here (s : str) : option (str * option str) :=
  match s with
  | d :: s1 =>
      if is_digit d then
        let (run, s2) := span is_digit_or_comma s1 in
        match s2 with
        | dot :: f1 :: f2 :: s3 =>
            if (ascii_eqb dot "." && is_digit f1 && is_digit f2)%bool then
              let amt := d :: run ++ [dot; f1; f2] in
              match polarity_suffix s3 with
              | Some (t, s4) =>
                  if at_end s4 then Some (amt, Some t)
                  else if at_end s3 then Some (amt, None)
                  else None
              | None => if at_end s3 then Some (amt, None) else None
              end
            else None
        | _ => None
        end
      else None
  | [] => None
  end.

(** [re.search]: the leftmost position where the pattern matches, here
    [pos] characters after the start of the searched string. *)
Fixpoint search_balance_from (pos : nat) (s : str) : option (nat * str * option str) :=
  match match_balance_here s with
  | Some (amt, typ) => Some (pos, amt, typ)
  | None =>
      match s with
      | [] => None
      | _ :: s' => search_balance_from (S pos) s'
      end
  end.

(** [re.search(r'(\d[\d,]*\.\d{2})(Cr|Dr)?$', rest)]: start, group 1, group 2. *)
Definition search_balance (rest : str) : option (nat * str * option str) :=
  search_balance_from 0 rest.

Definition is_separator_char (c : ascii) : bool :=
  (ascii_eqb c "." || ascii_eqb c "-" || ascii_eqb c "_" || ascii_eqb c "=")%bool.

(** [re.match(r'^[\.\-_=]{5,}$', line)] succeeds.  After the greedy run the
    next character is outside the class, so a shorter run cannot reach [$]. *)
Definition match_separator (line : str) : bool :=
  let (run, rest) := span is_separator_char line in
  (Nat.leb 5 (length run) && at_end rest)%bool.

(** ** Dates *)

Record date := { day : Z; month : Z; year : Z }.

Definition is_leap (y : Z) : bool :=
  ((y mod 4 =? 0) && (negb (y mod 100 =? 0) || (y mod 400 =? 0)))%Z%bool.

Definition days_in_month (y m : Z) : Z :=
  if (m =? 2)%Z then (if is_leap y then 29 else 28)%Z
  else if ((m =? 4) || (m =? 6) || (m =? 9) || (m =? 11))%Z%bool then 30%Z
  else 31%Z.

(** [datetime.strptime(date_str, "%d-%m-%y" if len(date_str.split('-')[2]) == 2
    else "%d-%m-%Y")] on a string of the shape the date pattern yields: two
    digits, a hyphen, two digits, a hyphen and the year digits.  [%y] wants
    two digits and pivots at 69; [%Y] wants four digits and a year from 1.
    [None] is ValueError. *)
Definition strptime (date_str : str) : option date :=
  match date_str with
  | d1 :: d2 :: _ :: m1 :: m2 :: _ :: year_part =>
      let d := digits_val [d1; d2] in
      let m := digits_val [m1; m2] in
      let y := digits_val year_part in
      let year_ok :=
        if Nat.eqb (length year_part) 2
        then Some (if (y <=? 68)%Z then (y + 2000)%Z else (y + 1900)%Z)
        else if Nat.eqb (length year_part) 4
             then (if (1 <=? y)%Z then Some y else None)
             else None in
      match year_ok with
      | Some yr =>
          if ((1 <=? m) && (m <=? 12) && (1 <=? d) && (d <=? days_in_month yr m))%Z%bool
          then Some {| day := d; month := m; year := yr |}
          else None
      | None => None
      end
  | _ => None
  end.

Definition digit_char (n : Z) : ascii := ascii_of_N (48 + Z.to_N n).

(** [n] written with exactly [width] digits, zero-padded. *)
Fixpoint zero_padded (width : nat) (n : Z) : str :=
  match width with
  | O => []
  | S w => zero_padded w (n / 10) ++ [digit_char (n mod 10)]
  end.

(** The number of digits of a year from 1 to 9999, the years a [datetime]
    can hold. *)
Definition year_width (y : Z) : nat :=
  if (y <? 10)%Z then 1%nat
  else if (y <? 100)%Z then 2%nat
  else if (y <? 1000)%Z then 3%nat
  else 4%nat.

(** [date_obj.strftime("%d-%m-%Y")].  Day and month have two digits.  The
    year is written by the C library, which on Linux does not pad it: the
    year 999 gives "999". *)
Definition strftime (d : date) : str :=
  zero_padded 2 (day d) ++ lit "-" ++ zero_padded 2 (month d) ++ lit "-" ++
  zero_padded (year_width (year d)) (year d).

(** ** Parsing one transaction line *)

Record Transaction := {
  Date : str;
  Particulars : str;
  Deposit : float;
  Withdrawals : float;
  Closing_Balance : str
}.

Definition parse_transaction_line (line : str) (prev_balance : option float)
  : option Transaction * option float :=
  match match_date_prefix line with
  | None => (None, prev_balance)
  | Some date_str =>
      match strptime date_str with
      | None => (None, prev_balance)
      | Some date_obj =>
          let date := strftime date_obj in
          let rest := strip (skipn (length date_str) line) in
          match search_balance rest with
          | None => (None, prev_balance)
          | Some (start, balance_amt, group2) =>
              let balance_type :=
                match group2 with Some t => t | None => lit "Cr" end in
              let balance_val := float_of (remove_commas balance_amt) in
              let balance_val :=
                if str_eqb balance_type (lit "Cr") then balance_val
                else float_neg balance_val in
              let '(deposit, withdrawal) :=
                match prev_balance with
                | Some prev =>
                    let diff := float_sub balance_val prev in
                    if float_lt zero diff then (diff, zero)
                    else if float_lt diff zero then (zero, float_neg diff)
                    else (zero, zero)
                | None => (zero, zero)
                end in
              let narration := strip (firstn start rest) in
              (Some {| Date := date;
                       Particulars := narration;
                       Deposit := round2 deposit;
                       Withdrawals := round2 withdrawal;
                       Closing_Balance := balance_amt ++ balance_type |},
               Some balance_val)
          end
      end
  end.

(** ** The document walker *)

(** The three variables of [extract_transactions]. *)
Record walker := {
  entries : list Transaction;
  prev_balance : option float;
  narration_buffer : str
}.

Definition initial : walker :=
  {| entries := []; prev_balance := None; narration_buffer := [] |}.

(** The filter at the head of the inner loop, on the stripped line. *)
Definition is_noise (line : str) : bool :=
  (negb (nonempty line)
   || contains (lit "account") (lower line)
   || contains (lit "page") (lower line)
   || contains (lit "total") (lower line)
   || match_separator line)%bool.

(** [record["Particulars"] += text] *)
Definition append_particulars (record : Transaction) (text : str) : Transaction :=
  {| Date := Date record;
     Particulars := Particulars record ++ text;
     Deposit := Deposit record;
     Withdrawals := Withdrawals record;
     Closing_Balance := Closing_Balance record |}.

(** [entries[-1]["Particulars"] += text] *)
Fixpoint append_to_last (es : list Transaction) (text : str) : list Transaction :=
  match es with
  | [] => []
  | [e] => [append_particulars e text]
  | e :: es' => e :: append_to_last es' text
  end.

(** [if narration_buffer and entries: entries[-1]["Particulars"] += " " +
    narration_buffer.strip(); narration_buffer = ""].  When either is empty
    nothing happens: the buffer is kept. *)
Definition flush (es : list Transaction) (buffer : str) : list Transaction * str :=
  if (nonempty buffer && nonempty es)%bool
  then (append_to_last es (lit " " ++ strip buffer), [])
  else (es, buffer).

(** One iteration of the inner loop. *)
Definition step (st : walker) (line : str) : walker :=
  let line := strip line in
  if is_noise line then st
  else
    match match_date_prefix line with
    | Some _ =>
        let (es, buffer) := flush (entries st) (narration_buffer st) in
        let (parsed, prev) := parse_transaction_line line (prev_balance st) in
        match parsed with
        | Some record =>
            {| entries := es ++ [record]; prev_balance := prev;
               narration_buffer := buffer |}
        | None =>
            {| entries := es; prev_balance := prev; narration_buffer := buffer |}
        end
    | None =>
        {| entries := entries st; prev_balance := prev_balance st;
           narration_buffer := narration_buffer st ++ lit " " ++ strip line |}
    end.

Definition walk_lines (st : walker) (lines : list str) : walker :=
  fold_left step lines st.

(** The loop over the pages; a page is the text [page.extract_text()] gives. *)
Definition walk_pages (st : walker) (pages : list str) : walker :=
  fold_left (fun st page => walk_lines st (split_lines page)) pages st.

Definition finish (st : walker) : list Transaction :=
  fst (flush (entries st) (narration_buffer st)).

Definition extract_transactions (pdf : list str) : list Transaction :=
  finish (walk_pages initial pdf).

(** ** Ledger classification *)

(** [re.sub(r'[^a-zA-Z0-9 ]', '', text.lower()).strip()] *)
Definition is_kept (c : ascii) : bool :=
  (between 97 122 c || between 65 90 c || between 48 57 c || ascii_eqb c " ")%bool.

Definition clean_text (text : str) : str :=
  strip (filter is_kept (lower text)).

Definition drawings_keywords : list str :=
  map lit ["swiggy"; "instamart"; "zomato"; "amazon"; "flipkart"; "groceries";
           "grocery"; "blinkit"; "zepto"]%string.

Definition cash_keywords : list str :=
  map lit ["cash from atm"; "atm withdrawal"; "atm wdl"; "cash withdrawal"]%string.

Definition default_mapping (narration : str) : str :=
  let narration_lower := lower narration in
  if (contains (lit "cash") narration_lower || contains (lit "atm") narration_lower)%bool
  then lit "Cash"
  else if existsb (fun keyword => contains keyword narration_lower) drawings_keywords
  then lit "Drawings"
  else if existsb (fun keyword => contains keyword narration_lower) cash_keywords
  then lit "Cash"
  else lit "".

Fixpoint apply_custom_mapping (narration : str) (custom_map : list (str * str)) : str :=
  match custom_map with
  | [] => lit ""
  | (keyword, ledger) :: custom_map' =>
      if contains (lower keyword) (lower narration) then ledger
      else apply_custom_mapping narration custom_map'
  end.

Inductive mapping_type := Custom_Default_Mapping | Trend_Mapping.

(** [col.where(col != "", other)] *)
Definition where_nonempty (col other : list str) : list str :=
  map (fun p => if nonempty (fst p) then fst p else snd p) (combine col other).

Section Classification.

(** [fuzz.partial_ratio] of rapidfuzz: a score between 0 and 100. *)
Variable partial_ratio : str -> str -> Q.

(** The loop body of [apply_trend_mapping] on the pair
    [(best_match, best_score)]. *)
Definition trend_step (narration_clean : str) (best : str * Q) (item : str * str)
  : str * Q :=
  let (keyword, ledger) := item in
  let keyword_clean := clean_text keyword in
  let score := partial_ratio narration_clean keyword_clean in
  if negb (Qle_bool score (snd best)) then (ledger, score) else best.

Definition apply_trend_mapping (narration : str) (trend_map : list (str * str)) : str :=
  let narration_clean := clean_text narration in
  let (best_match, best_score) :=
    fold_left (trend_step narration_clean) trend_map (lit "", 0) in
  if negb (Qle_bool best_score 70) then best_match else lit "".

(** The "Ledger Name" column computed by the handler of the
    "Extract & Apply Mapping" button for the extracted records. *)
Definition ledger_names (mode : mapping_type)
    (enable_default_mapping enable_custom_mapping : bool)
    (custom_map trend_map : list (str * str)) (data : list Transaction) : list str :=
  let particulars := map Particulars data in
  let column := map (fun _ => lit "") data in
  match mode with
  | Custom_Default_Mapping =>
      let column :=
        if enable_default_mapping then map default_mapping particulars
        else column in
      if (enable_custom_mapping && nonempty custom_map)%bool
      then where_nonempty column
             (map (fun x => apply_custom_mapping x custom_map) particulars)
      else column
  | Trend_Mapping =>
      if nonempty trend_map
      then map (fun x => apply_trend_mapping x trend_map) particulars
      else column
  end.

End Classification.

(** ** Specification-side definitions *)

(** A lowercase ASCII letter, a digit or a space. *)
Definition is_clean_char (c : ascii) : bool :=
  (between 97 122 c || between 48 57 c || ascii_eqb c " ")%bool.

(** Neither the first nor the last character is whitespace. *)
Definition no_outer_whitespace (s : str) : Prop :=
  forall c, hd_error s = Some c \/ hd_error (rev s) = Some c -> is_space c = false.

(** [default_mapping] without its third branch. *)
Definition default_mapping_two_tier (narration : str) : str :=
  let narration_lower := lower narration in
  if (contains (lit "cash") narration_lower || contains (lit "atm") narration_lower)%bool
  then lit "Cash"
  else if existsb (fun keyword => contains keyword narration_lower) drawings_keywords
  then lit "Drawings"
  else lit "".

(** The ledger the "Custom + Default" composition is to give a record:
    the default mapping's when it is not empty, else the custom mapping's. *)
Definition default_then_custom (custom_map : list (str * str)) (r : Transaction) : str :=
  let by_default := default_mapping (Particulars r) in
  if nonempty by_default then by_default
  else apply_custom_mapping (Particulars r) custom_map.

(** A scoring function for examples: 70 against "alpha", 71 against "beta",
    0 against anything else. *)
Definition example_ratio (narration keyword : str) : Q :=
  if str_eqb keyword (lit "alpha") then 70
  else if str_eqb keyword (lit "beta") then 71
  else 0.

(** The score [apply_trend_mapping] gives a trend-map item for a narration. *)
Definition trend_score (partial_ratio : str -> str -> Q)
    (narration : str) (item : str * str) : Q :=
  partial_ratio (clean_text narration) (clean_text (fst item)).

(** [c] is the small letter [w] or its capital, which stands 32 code
    points before it. *)
Definition same_letter (c w : ascii) : bool :=
  (ascii_eqb c w || N.eqb (code c + 32) (code w))%bool.

(** [word], a word in small letters, occurs in [line] in some mix of
    cases. *)
Definition occurs_ignoring_case (word line : str) : Prop :=
  exists pre mid post,
    line = pre ++ mid ++ post /\ Forall2 (fun c w => same_letter c w = true) mid word.

(** Five or more characters, each of them a dot, a hyphen, an underscore or
    an equals sign. *)
Definition separator_line (line : str) : Prop :=
  (5 <= length line)%nat
  /\ Forall (fun c => c = "."%char \/ c = "-"%char \/ c = "_"%char \/ c = "="%char) line.

(** The lines the walker is to skip, on the trimmed line. *)
Definition noise_line (line : str) : Prop :=
  line = []
  \/ occurs_ignoring_case (lit "account") line
  \/ occurs_ignoring_case (lit "page") line
  \/ occurs_ignoring_case (lit "total") line
  \/ separator_line line.

(** The step on [line] appends no record. *)
Definition adds_no_record (st : walker) (line : str) : Prop :=
  length (entries (step st line)) = length (entries st).

(** The step on [line] does not put the line into the continuation
    buffer. *)
Definition not_buffered (st : walker) (line : str) : Prop :=
  narration_buffer (step st line) <> narration_buffer st ++ lit " " ++ strip line.

(** The trimmed line starts with a date token and does not parse. *)
Definition failed_header (line : str) : Prop :=
  match_date_prefix line <> None
  /\ forall prev, fst (parse_transaction_line line prev) = None.

(** A record and a walker state for examples. *)
Definition example_record : Transaction :=
  {| Date := lit "01-01-2024"; Particulars := lit "PAY"; Deposit := zero;
     Withdrawals := zero; Closing_Balance := lit "100.00Cr" |}.

Definition example_state : walker :=
  {| entries := [example_record]; prev_balance := Some (float_of (lit "100.00"));
     narration_buffer := lit " REF 1" |}.

(** The text of a page whose lines are [lines]. *)
Fixpoint unlines (lines : list str) : str :=
  match lines with
  | [] => []
  | [l] => l
  | l :: ls => l ++ newline :: unlines ls
  end.

(** The grammar [\d[\d,]*\.\d{2}] of a balance figure. *)
Definition amount_string (amt : str) : Prop :=
  exists d run f1 f2,
    amt = d :: run ++ ["."%char; f1; f2]
    /\ is_digit d = true /\ forallb is_digit_or_comma run = true
    /\ is_digit f1 = true /\ is_digit f2 = true.

(** The text group 2 of the balance pattern matched. *)
Definition group_text (group2 : option str) : str :=
  match group2 with Some t => t | None => [] end.

(** The signed balance a "Closing Balance" text stands for: the figure
    before the two polarity letters, negated for "Dr". *)
Definition signed_balance (r : Transaction) : float :=
  let text := Closing_Balance r in
  let n := (length text - 2)%nat in
  let magnitude := float_of (remove_commas (firstn n text)) in
  if str_eqb (skipn n text) (lit "Dr") then float_neg magnitude else magnitude.

Definition is_nan (x : float) : bool :=
  match x with S754_nan => true | _ => false end.

(** [0.0] or [-0.0] *)
Definition is_zero (x : float) : bool :=
  match x with S754_zero _ => true | _ => false end.

(** A zero, a finite number or an infinity of sign [s] (true is minus);
    not NaN. *)
Definition signed_as (s : bool) (x : float) : Prop :=
  match x with
  | S754_zero s' | S754_infinity s' | S754_finite s' _ _ => s' = s
  | S754_nan => False
  end.

(** [0.0 <= x] *)
Definition nonnegative (x : float) : bool := SFleb zero x.

(** The amounts the difference to the previous balance gives a record. *)
Definition amounts_follow (prev : option float) (r : Transaction) : Prop :=
  match prev with
  | None => Deposit r = zero /\ Withdrawals r = zero
  | Some p =>
      let diff := float_sub (signed_balance r) p in
      (float_lt zero diff = true
       /\ Deposit r = round2 diff /\ Withdrawals r = zero)
      \/ (float_lt zero diff = false /\ float_lt diff zero = true
          /\ Deposit r = zero /\ Withdrawals r = round2 (float_neg diff))
      \/ (float_lt zero diff = false /\ float_lt diff zero = false
          /\ Deposit r = zero /\ Withdrawals r = zero)
  end.

(** Every record follows from the balance of the record before it, the
    first one from [prev]. *)
Fixpoint chain (prev : option float) (es : list Transaction) : Prop :=
  match es with
  | [] => True
  | e :: es' => amounts_follow prev e /\ chain (Some (signed_balance e)) es'
  end.

(** The balance of the last record, [prev] when there is none. *)
Definition last_balance (prev : option float) (es : list Transaction) : option float :=
  fold_left (fun _ e => Some (signed_balance e)) es prev.

(** The invariant of the walker: the records form a chain and the running
    balance is the balance of the last record. *)
Definition walker_invariant (st : walker) : Prop :=
  chain None (entries st) /\ prev_balance st = last_balance None (entries st).

(** Statements for examples: the balance rises by 500, by 0.20, and stays
    as it is. *)
Definition example_pdf : list str :=
  [unlines [lit "01-01-24 OPENING 1,000.00Cr"; lit "02-01-24 SALARY 1,500.00Cr"]].

Definition example_pdf_cents : list str :=
  [unlines [lit "01-01-24 OPENING 0.10Cr"; lit "02-01-24 INTEREST 0.30Cr"]].

Definition example_pdf_level : list str :=
  [unlines [lit "01-01-24 CHEQUE 100.00Cr"; lit "02-01-24 CHEQUE RETURNED 100.00Cr"]].

Definition example_pdf_large : list str :=
  [unlines [lit "01-01-24 OPENING 9,007,199,254,740,992.00Cr";
            lit "02-01-24 INTEREST 9,007,199,254,740,993.00Cr"]].

(** The signed balance of a record in whole hundredths, read off the
    digits of its Closing Balance. *)
Definition exact_hundredths (r : Transaction) : Z :=
  let text := Closing_Balance r in
  let n := (length text - 2)%nat in
  let figure := digits_val (filter is_digit (firstn n text)) in
  if str_eqb (skipn n text) (lit "Dr") then (- figure)%Z else figure.

(** The digits and commas at the end of [pre] that belong to the balance
    figure written after it: the longest run of them that starts with a
    digit. *)
Fixpoint figure_head (pre : str) : str :=
  match pre with
  | [] => []
  | c :: pre' =>
      if (is_digit c && forallb is_digit_or_comma pre')%bool then pre
      else figure_head pre'
  end.

(** What stands before them. *)
Definition before_figure (pre : str) : str :=
  firstn (length pre - length (figure_head pre)) pre.

(** The polarity letters of a Closing Balance for those of the line. *)
Definition polarity_or_credit (polarity : str) : str :=
  if nonempty polarity then polarity else lit "Cr".

(** [amt] matches [\d[\d,]*\.\d{2}] as a whole. *)
Definition is_amount (amt : str) : bool :=
  match amt with
  | d :: s =>
      let (run, rest) := span is_digit_or_comma s in
      match rest with
      | [dot; f1; f2] => (is_digit d && ascii_eqb dot "." && is_digit f1 && is_digit f2)%bool
      | _ => false
      end
  | [] => false
  end.

(** ** Mapping files *)

(** [account_info]: the two text inputs of the form. *)
Record account := { name : str; account_number : str }.

(** [s.replace(' ', '_')] *)
Definition replace_spaces (s : str) : str :=
  map (fun c => if ascii_eqb c " " then "_"%char else c) s.

(** [s[-4:]]: the last four characters, the whole string when it is
    shorter. *)
Definition last_four (s : str) : str := skipn (length s - 4) s.

(** [f"{account_info['name'].replace(' ', '_')}_{account_info['account_number'][-4:]}"] *)
Definition user_id (account_info : account) : str :=
  replace_spaces (name account_info) ++ lit "_"
  ++ last_four (account_number account_info).

(** [f"{user_id}_mapping.json"] *)
Definition file_path (account_info : account) : str :=
  user_id account_info ++ lit "_mapping.json".

(** The object a mapping file holds,
    [{"custom_map": custom_map, "trend_map": trend_map}]: what [json.dump]
    writes is what [json.load] reads back. *)
Record mapping_data := {
  stored_custom_map : list (str * str);
  stored_trend_map : list (str * str)
}.

(** The mapping files of the working directory: path and content, at most
    one entry per path. *)
Definition files := list (str * mapping_data).

(** [os.path.exists], [open(path, "r")] and [json.load]; [None] when the
    file does not exist. *)
Definition read_file (path : str) (fs : files) : option mapping_data :=
  option_map snd (find (fun f => str_eqb (fst f) path) fs).

Section Files.

(** Whether [open(path, "w")] succeeds.  It raises when the path names no
    file of an existing directory, as a name with a "/" in it may. *)
Variable writable : str -> bool.

(** [open(path, "w")] and [json.dump]: the file is created or replaced;
    [None] when [open] raises. *)
Definition write_file (path : str) (data : mapping_data) (fs : files)
  : option files :=
  if writable path
  then Some ((path, data) :: filter (fun f => negb (str_eqb (fst f) path)) fs)
  else None.

Definition save_mapping (account_info : account)
    (custom_map trend_map : list (str * str)) (fs : files) : option files :=
  write_file (file_path account_info)
             {| stored_custom_map := custom_map; stored_trend_map := trend_map |} fs.

End Files.

Definition load_mapping (account_info : account) (fs : files)
  : list (str * str) * list (str * str) :=
  match read_file (file_path account_info) fs with
  | Some data => (stored_custom_map data, stored_trend_map data)
  | None => ([], [])
  end.

(** ** The form *)

(** [d[k] = v] on a dict in insertion order: a key already there keeps its
    place and takes the new value, a new key goes to the end. *)
Fixpoint dict_set (d : list (str * str)) (k v : str) : list (str * str) :=
  match d with
  | [] => [(k, v)]
  | (k', v') :: d' =>
      if str_eqb k' k then (k', v) :: d' else (k', v') :: dict_set d' k v
  end.

(** The loop over the rows of the custom-mapping form:
    [if keyword and ledger: custom_map[keyword] = ledger]. *)
Definition custom_map_of_rows (rows : list (str * str)) : list (str * str) :=
  fold_left
    (fun custom_map row =>
       if (nonempty (fst row) && nonempty (snd row))%bool
       then dict_set custom_map (fst row) (snd row)
       else custom_map)
    rows [].

(** [df.drop_duplicates(subset=["Particulars"])] on rows
    (Particulars, Ledger Name): a row is dropped when its Particulars was
    seen in an earlier row. *)
Fixpoint drop_duplicates_seen (seen : list str) (rows : list (str * str))
  : list (str * str) :=
  match rows with
  | [] => []
  | row :: rows' =>
      if existsb (str_eqb (fst row)) seen then drop_duplicates_seen seen rows'
      else row :: drop_duplicates_seen (fst row :: seen) rows'
  end.

Definition drop_duplicates (rows : list (str * str)) : list (str * str) :=
  drop_duplicates_seen [] rows.

(** [dict(zip(keys, values))] *)
Definition dict_of_rows (rows : list (str * str)) : list (str * str) :=
  fold_left (fun d row => dict_set d (fst row) (snd row)) rows [].

(** [trend_map] from the rows of the previous statement, for a sheet whose
    two columns hold text. *)
Definition trend_map_of_rows (rows : list (str * str)) : list (str * str) :=
  dict_of_rows (drop_duplicates rows).

(** [d.get(k)] *)
Fixpoint dict_get (d : list (str * str)) (k : str) : option str :=
  match d with
  | [] => None
  | (k', v) :: d' => if str_eqb k' k then Some v else dict_get d' k
  end.

(** What the form holds when the button is pressed.  [previous_rows] is
    [None] when no previous statement was uploaded or it lacks one of the
    columns "Particulars" and "Ledger Name". *)
Record form := {
  mapping_choice : mapping_type;
  enable_default_mapping : bool;
  enable_custom_mapping : bool;
  custom_rows : list (str * str);
  previous_rows : option (list (str * str))
}.

Definition form_custom_map (f : form) : list (str * str) :=
  match mapping_choice f with
  | Custom_Default_Mapping =>
      if enable_custom_mapping f then custom_map_of_rows (custom_rows f) else []
  | Trend_Mapping => []
  end.

Definition form_trend_map (f : form) : list (str * str) :=
  match mapping_choice f with
  | Custom_Default_Mapping => []
  | Trend_Mapping =>
      match previous_rows f with
      | Some rows => trend_map_of_rows rows
      | None => []
      end
  end.

Section Handler.

Variable partial_ratio : str -> str -> Q.
Variable writable : str -> bool.

(** The handler of the "Extract & Apply Mapping" button: the table shown
    (each record with its Ledger Name, [None] for the warning that no
    transaction was found) and the files afterwards ([None] when
    [save_mapping] raised, after the table was shown). *)
Definition extract_and_apply_mapping
    (pdf : list str) (account_info : account) (f : form) (fs : files)
  : option (list (Transaction * str)) * option files :=
  let data := extract_transactions pdf in
  if nonempty data then
    let custom_map := form_custom_map f in
    let trend_map := form_trend_map f in
    (Some (combine data
             (ledger_names partial_ratio (mapping_choice f)
                (enable_default_mapping f) (enable_custom_mapping f)
                custom_map trend_map data)),
     save_mapping writable account_info custom_map trend_map fs)
  else (None, Some fs).

End Handler.

(** ** Specification-side definitions for the further properties *)

(** No keyword of the pair occurs in the narration, case ignored. *)
Definition keyword_misses (narration : str) (item : str * str) : Prop :=
  contains (lower (fst item)) (lower narration) = false.

(** [{clean_text(k): v for k, v in trend_map.items()}]: the trend map
    with its keys cleaned.  Of the keys that clean to the same text the
    first keeps its place and the last its ledger. *)
Definition clean_keys (trend_map : list (str * str)) : list (str * str) :=
  fold_left (fun d item => dict_set d (clean_text (fst item)) (snd item)) trend_map [].

(** The date a date token is to be written as: a token with a two-digit
    year gets the century in front, 20 up to 68 and 19 from 69. *)
Definition normalised_date (date_str : str) : str :=
  if Nat.eqb (length date_str) 8
  then firstn 6 date_str
       ++ (if (digits_val (skipn 6 date_str) <=? 68)%Z then lit "20" else lit "19")
       ++ skipn 6 date_str
  else date_str.

(** The lines of a document, page after page. *)
Definition lines_of (pdf : list str) : list str := concat (map split_lines pdf).

(** The trimmed line starts with a date token. *)
Definition is_header (line : str) : bool :=
  match match_date_prefix (strip line) with Some _ => true | None => false end.

(** A line the walker puts into the buffer: neither noise nor a header. *)
Definition is_continuation (line : str) : bool :=
  (negb (is_noise (strip line)) && negb (is_header line))%bool.

(** The texts with one space between them. *)
Fixpoint join_spaces (texts : list str) : str :=
  match texts with
  | [] => []
  | [t] => t
  | t :: texts' => t ++ " "%char :: join_spaces texts'
  end.

(** [e'] is [e] with text added to its Particulars, or [e] itself. *)
Definition extends (e e' : Transaction) : Prop :=
  Date e' = Date e /\ Deposit e' = Deposit e /\ Withdrawals e' = Withdrawals e
  /\ Closing_Balance e' = Closing_Balance e
  /\ exists text, Particulars e' = Particulars e ++ text.

(** What happens to the record at a position when the records change:
    it is still there, extended at most, and untouched unless it was the
    last one. *)
Definition kept (es es' : list Transaction) : Prop :=
  forall i e,
    nth_error es i = Some e ->
    exists e', nth_error es' i = Some e' /\ extends e e'
               /\ (S i < length es -> e' = e)%nat.

(** The ledger the "Custom + Default" composition is to give a record for
    each setting of the two checkboxes. *)
Definition composed_ledger (enable_default enable_custom : bool)
    (custom_map : list (str * str)) (r : Transaction) : str :=
  let by_default := if enable_default then default_mapping (Particulars r) else lit "" in
  if nonempty by_default then by_default
  else if enable_custom then apply_custom_mapping (Particulars r) custom_map
  else lit "".

(** The rows of the custom-mapping form that have both a keyword and a
    ledger. *)
Definition valid_rows (rows : list (str * str)) : list (str * str) :=
  filter (fun row => (nonempty (fst row) && nonempty (snd row))%bool) rows.

(** The first and the last row with a given key. *)
Definition first_row (k : str) (rows : list (str * str)) : option (str * str) :=
  find (fun row => str_eqb (fst row) k) rows.

Definition last_row (k : str) (rows : list (str * str)) : option (str * str) :=
  first_row k (rev rows).

(** * Properties *)

(** ** Characters and text *)

(** Case analysis over the 256 characters. *)
Ltac each_char c :=
  destruct c as [[] [] [] [] [] [] [] []];
  vm_compute; try reflexivity; try discriminate; auto.

Lemma ascii_eqb_eq (a b : ascii) : ascii_eqb a b = true <-> a = b.
Proof. unfold ascii_eqb. apply Ascii.eqb_eq. Qed.

Lemma ascii_eqb_refl (a : ascii) : ascii_eqb a a = true.
Proof. apply ascii_eqb_eq. reflexivity. Qed.

Lemma lstrip_not_space (c : ascii) (s : str) :
  is_space c = false -> lstrip (c :: s) = c :: s.
Proof. intro H. simpl. rewrite H. reflexivity. Qed.

Lemma lstrip_head (s : str) (c : ascii) (t : str) :
  lstrip s = c :: t -> is_space c = false.
Proof.
  induction s as [|x s IH]; simpl; [discriminate|].
  destruct (is_space x) eqn:E; [exact IH|].
  intro H. injection H as -> _. exact E.
Qed.

Lemma lstrip_idem (s : str) : lstrip (lstrip s) = lstrip s.
Proof.
  destruct (lstrip s) as [|c t] eqn:E; [reflexivity|].
  apply lstrip_not_space. eapply lstrip_head. exact E.
Qed.

Lemma lstrip_suffix (s : str) : exists pre, s = pre ++ lstrip s /\ forallb is_space pre = true.
Proof.
  induction s as [|x s [pre [IH1 IH2]]]; simpl.
  - exists []. split; reflexivity.
  - destruct (is_space x) eqn:E.
    + exists (x :: pre). simpl. rewrite E, IH2. split; [f_equal; exact IH1 | reflexivity].
    + exists []. split; reflexivity.
Qed.

Lemma lstrip_snoc (s : str) (c : ascii) :
  is_space c = false -> lstrip (s ++ [c]) = lstrip s ++ [c].
Proof.
  intro H. induction s as [|x s IH]; simpl.
  - rewrite H. reflexivity.
  - destruct (is_space x); [exact IH | reflexivity].
Qed.

Lemma rstrip_cons (c : ascii) (s : str) :
  is_space c = false -> rstrip (c :: s) = c :: rstrip s.
Proof.
  intro H. unfold rstrip. simpl. rewrite lstrip_snoc by exact H.
  rewrite rev_app_distr. reflexivity.
Qed.

Lemma rstrip_snoc (s : str) (c : ascii) :
  is_space c = false -> rstrip (s ++ [c]) = s ++ [c].
Proof.
  intro H. unfold rstrip. rewrite rev_app_distr. simpl. rewrite H.
  simpl. rewrite rev_involutive. reflexivity.
Qed.

Lemma rstrip_last (s t : str) (c : ascii) :
  rstrip s = t ++ [c] -> is_space c = false.
Proof.
  unfold rstrip. intro H.
  apply (f_equal (@rev ascii)) in H. rewrite rev_involutive, rev_app_distr in H.
  simpl in H. eapply lstrip_head. exact H.
Qed.

Lemma strip_head (s : str) (c : ascii) (t : str) :
  strip s = c :: t -> is_space c = false.
Proof.
  unfold strip. destruct (lstrip s) as [|x u] eqn:E.
  - discriminate.
  - pose proof (lstrip_head _ _ _ E) as Hx.
    rewrite rstrip_cons by exact Hx. intro H. injection H as -> _. exact Hx.
Qed.

Lemma strip_last (s t : str) (c : ascii) :
  strip s = t ++ [c] -> is_space c = false.
Proof. unfold strip. apply rstrip_last. Qed.

Lemma strip_fixed (s : str) :
  (forall c t, s = c :: t -> is_space c = false) ->
  (forall c t, s = t ++ [c] -> is_space c = false) ->
  strip s = s.
Proof.
  intros Hh Hl. unfold strip.
  assert (lstrip s = s) as ->.
  { destruct s as [|c t]; [reflexivity|]. apply lstrip_not_space. eapply Hh. reflexivity. }
  destruct (rev s) as [|c t] eqn:E.
  - apply (f_equal (@rev ascii)) in E. rewrite rev_involutive in E. subst s. reflexivity.
  - apply (f_equal (@rev ascii)) in E. rewrite rev_involutive in E. simpl in E.
    subst s. apply rstrip_snoc. eapply Hl. reflexivity.
Qed.

Lemma strip_idem (s : str) : strip (strip s) = strip s.
Proof.
  apply strip_fixed.
  - intros c t H. eapply strip_head. exact H.
  - intros c t H. eapply strip_last. exact H.
Qed.

Lemma lstrip_incl (s : str) (c : ascii) : In c (lstrip s) -> In c s.
Proof.
  destruct (lstrip_suffix s) as [pre [H _]]. intro Hc. rewrite H.
  apply in_or_app. right. exact Hc.
Qed.

Lemma strip_incl (s : str) (c : ascii) : In c (strip s) -> In c s.
Proof.
  unfold strip, rstrip. intro H. apply in_rev in H. apply lstrip_incl in H.
  apply in_rev in H. apply lstrip_incl in H. exact H.
Qed.

(** ** [clean_text] *)

Lemma kept_lower_is_clean (c : ascii) :
  is_kept (lower_char c) = true -> is_clean_char (lower_char c) = true.
Proof. each_char c. Qed.

Lemma clean_char_fixed (c : ascii) :
  is_clean_char c = true -> lower_char c = c /\ is_kept c = true.
Proof. each_char c. Qed.

Lemma clean_text_chars (s : str) :
  Forall (fun c => is_clean_char c = true) (clean_text s).
Proof.
  apply Forall_forall. intros c Hc. unfold clean_text in Hc.
  apply strip_incl in Hc. apply filter_In in Hc as [Hin Hk].
  unfold lower in Hin. apply in_map_iff in Hin as [c0 [<- _]].
  apply kept_lower_is_clean. exact Hk.
Qed.

Lemma clean_chars_fixed (s : str) :
  Forall (fun c => is_clean_char c = true) s ->
  filter is_kept (lower s) = s.
Proof.
  induction 1 as [|c s Hc _ IH]; [reflexivity|].
  destruct (clean_char_fixed c Hc) as [Hl Hk].
  unfold lower in *. simpl. rewrite Hl, Hk, IH. reflexivity.
Qed.

Lemma strip_no_outer_whitespace (s : str) : no_outer_whitespace (strip s).
Proof.
  intros c [H|H].
  - destruct (strip s) as [|x t] eqn:E; [discriminate|].
    injection H as ->. eapply strip_head. exact E.
  - destruct (rev (strip s)) as [|x t] eqn:E; [discriminate|].
    injection H as ->. apply (f_equal (@rev ascii)) in E.
    rewrite rev_involutive in E. simpl in E. eapply strip_last. exact E.
Qed.

(** C10: [clean_text] is idempotent; its result holds only lowercase ASCII
    letters, digits and spaces, and neither starts nor ends with
    whitespace. *)
Theorem clean_text_idempotent_and_clean (s : str) :
  clean_text (clean_text s) = clean_text s
  /\ Forall (fun c => is_clean_char c = true) (clean_text s)
  /\ no_outer_whitespace (clean_text s).
Proof.
  split; [|split].
  - unfold clean_text at 1.
    rewrite (clean_chars_fixed _ (clean_text_chars s)).
    unfold clean_text. apply strip_idem.
  - apply clean_text_chars.
  - apply strip_no_outer_whitespace.
Qed.

(** ** Substrings *)

Lemma startswith_iff (p s : str) :
  startswith p s = true <-> exists post, s = p ++ post.
Proof.
  revert s. induction p as [|x p IH]; intros s; simpl.
  - split; [intros _; exists s; reflexivity | reflexivity].
  - destruct s as [|y s].
    + split; [discriminate | intros [post H]; discriminate].
    + rewrite andb_true_iff, ascii_eqb_eq, IH. split.
      * intros [-> [post ->]]. exists post. reflexivity.
      * intros [post H]. injection H as -> ->. split; [reflexivity | exists post; reflexivity].
Qed.

Lemma contains_iff (sub s : str) :
  contains sub s = true <-> exists pre post, s = pre ++ sub ++ post.
Proof.
  induction s as [|y s IH].
  - simpl. rewrite orb_false_r, startswith_iff. split.
    + intros [post H]. exists [], post. exact H.
    + intros [pre [post H]]. destruct pre; [exists post; exact H | discriminate].
  - change (contains sub (y :: s)) with (startswith sub (y :: s) || contains sub s)%bool.
    rewrite orb_true_iff, startswith_iff, IH. split.
    + intros [[post H] | [pre [post H]]].
      * exists [], post. exact H.
      * exists (y :: pre), post. rewrite H. reflexivity.
    + intros [[|x pre] [post H]].
      * left. exists post. exact H.
      * right. injection H as -> ->. exists pre, post. reflexivity.
Qed.

Lemma contains_trans (a b c : str) :
  contains a b = true -> contains b c = true -> contains a c = true.
Proof.
  rewrite !contains_iff. intros [p1 [q1 ->]] [p2 [q2 ->]].
  exists (p2 ++ p1), (q1 ++ q2). rewrite <- !app_assoc. reflexivity.
Qed.

(** ** [default_mapping] *)

Lemma cash_keywords_covered :
  forallb (fun phrase => contains (lit "cash") phrase || contains (lit "atm") phrase)%bool
          cash_keywords = true.
Proof. reflexivity. Qed.

Lemma cash_tier_shadowed (s : str) :
  existsb (fun keyword => contains keyword s) cash_keywords = true ->
  (contains (lit "cash") s || contains (lit "atm") s)%bool = true.
Proof.
  intro H. apply existsb_exists in H as [phrase [Hin Hc]].
  pose proof cash_keywords_covered as Hall.
  rewrite forallb_forall in Hall. specialize (Hall phrase Hin).
  apply orb_true_iff in Hall as [Hk|Hk]; apply orb_true_iff; [left|right];
    eapply contains_trans; eassumption.
Qed.

(** C8: every phrase of [cash_keywords] contains "cash" or "atm", so a
    narration that reaches the third branch of [default_mapping] never
    matches it; [default_mapping] equals its two-tier version and returns
    "Cash", "Drawings" or the empty string. *)
Theorem default_mapping_second_cash_tier_unreachable (narration : str) :
  forallb (fun phrase => contains (lit "cash") phrase || contains (lit "atm") phrase)%bool
          cash_keywords = true
  /\ implb (existsb (fun keyword => contains keyword (lower narration)) cash_keywords)
           (contains (lit "cash") (lower narration)
            || contains (lit "atm") (lower narration)) = true
  /\ default_mapping narration = default_mapping_two_tier narration
  /\ (default_mapping narration = lit "Cash"
      \/ default_mapping narration = lit "Drawings"
      \/ default_mapping narration = lit "").
Proof.
  split; [exact cash_keywords_covered|].
  pose proof (cash_tier_shadowed (lower narration)) as Hs.
  unfold default_mapping, default_mapping_two_tier.
  destruct (contains (lit "cash") (lower narration) || contains (lit "atm") (lower narration))%bool eqn:E1.
  - split; [apply implb_true_r|]. split; [reflexivity | left; reflexivity].
  - destruct (existsb (fun keyword => contains keyword (lower narration)) cash_keywords) eqn:E3.
    + specialize (Hs eq_refl). discriminate.
    + split; [reflexivity|].
      destruct (existsb (fun keyword => contains keyword (lower narration)) drawings_keywords).
      * split; [reflexivity | right; left; reflexivity].
      * split; [reflexivity | right; right; reflexivity].
Qed.

(** ** The classification chain *)

Section ClassificationProperties.

Variable partial_ratio : str -> str -> Q.

Lemma where_nonempty_map {A : Type} (f g : A -> str) (l : list A) :
  where_nonempty (map f l) (map g l)
  = map (fun x => if nonempty (f x) then f x else g x) l.
Proof.
  unfold where_nonempty. induction l as [|x l IH]; simpl; [reflexivity|].
  f_equal. exact IH.
Qed.

(** C5: under "Custom + Default" with both mappings enabled, a record
    whose default mapping is not empty gets that ledger, and the custom
    mapping decides only the records the default mapping left empty. *)
Theorem custom_default_precedence
    (custom_map trend_map : list (str * str)) (data : list Transaction) :
  ledger_names partial_ratio Custom_Default_Mapping true true custom_map trend_map data
  = map (default_then_custom custom_map) data.
Proof.
  unfold ledger_names, default_then_custom. simpl.
  destruct custom_map as [|kv custom_map]; simpl.
  - rewrite map_map. apply map_ext. intro r.
    destruct (default_mapping (Particulars r)); reflexivity.
  - rewrite !map_map.
    apply (where_nonempty_map (fun r => default_mapping (Particulars r))
             (fun r => apply_custom_mapping (Particulars r) (kv :: custom_map))).
Qed.

Lemma trend_step_score (narration : str) (best : str * Q) (keyword ledger : str) :
  trend_step partial_ratio (clean_text narration) best (keyword, ledger)
  = if negb (Qle_bool (trend_score partial_ratio narration (keyword, ledger)) (snd best))
    then (ledger, trend_score partial_ratio narration (keyword, ledger)) else best.
Proof. reflexivity. Qed.

Lemma trend_fold (narration : str) (trend_map : list (str * str)) :
  forall (m0 : str) (s0 : Q),
    let r := fold_left (trend_step partial_ratio (clean_text narration)) trend_map (m0, s0) in
    (Forall (fun item => trend_score partial_ratio narration item <= s0) trend_map /\ r = (m0, s0))
    \/ (exists pre keyword ledger post,
           trend_map = pre ++ (keyword, ledger) :: post
           /\ r = (ledger, trend_score partial_ratio narration (keyword, ledger))
           /\ s0 < trend_score partial_ratio narration (keyword, ledger)
           /\ Forall (fun item => trend_score partial_ratio narration item < trend_score partial_ratio narration (keyword, ledger)) pre
           /\ Forall (fun item => trend_score partial_ratio narration item <= trend_score partial_ratio narration (keyword, ledger)) post).
Proof.
  induction trend_map as [|[k l] tm IH]; intros m0 s0; cbv zeta; cbn [fold_left].
  - left. split; [constructor | reflexivity].
  - rewrite trend_step_score. simpl snd.
    destruct (Qle_bool (trend_score partial_ratio narration (k, l)) s0) eqn:E; simpl.
    + apply Qle_bool_iff in E.
      destruct (IH m0 s0) as [[Hall Hr] | [pre [k' [l' [post [Htm [Hr [Hlt [Hpre Hpost]]]]]]]]].
      * left. split; [constructor; assumption | exact Hr].
      * right. exists ((k, l) :: pre), k', l', post.
        split; [rewrite Htm; reflexivity|].
        repeat split; try assumption.
        constructor; [|assumption]. eapply Qle_lt_trans; eassumption.
    + assert (s0 < trend_score partial_ratio narration (k, l)) as Hgt.
      { apply Qnot_le_lt. intro H. apply Qle_bool_iff in H. congruence. }
      destruct (IH l (trend_score partial_ratio narration (k, l)))
        as [[Hall Hr] | [pre [k' [l' [post [Htm [Hr [Hlt [Hpre Hpost]]]]]]]]].
      * right. exists [], k, l, tm. repeat split; try assumption. constructor.
      * right. exists ((k, l) :: pre), k', l', post.
        split; [rewrite Htm; reflexivity|].
        repeat split; try assumption.
        -- eapply Qlt_trans; eassumption.
        -- constructor; assumption.
Qed.

Lemma first_best_unique (narration : str) (pre1 pre2 post1 post2 : list (str * str))
    (i1 i2 : str * str) :
  pre1 ++ i1 :: post1 = pre2 ++ i2 :: post2 ->
  Forall (fun item => trend_score partial_ratio narration item < trend_score partial_ratio narration i1) pre1 ->
  Forall (fun item => trend_score partial_ratio narration item <= trend_score partial_ratio narration i1) post1 ->
  Forall (fun item => trend_score partial_ratio narration item < trend_score partial_ratio narration i2) pre2 ->
  Forall (fun item => trend_score partial_ratio narration item <= trend_score partial_ratio narration i2) post2 ->
  i1 = i2.
Proof.
  revert pre2. induction pre1 as [|x pre1 IH]; intros [|y pre2] H F1 G1 F2 G2; simpl in H.
  - congruence.
  - injection H as H1 H2. subst y post1. exfalso.
    inversion F2 as [|? ? Hy _]; subst.
    apply Forall_app in G1 as [_ G1]. inversion G1 as [|? ? Hi _]; subst.
    apply (Qlt_irrefl (trend_score partial_ratio narration i1)).
    eapply Qlt_le_trans; eassumption.
  - injection H as H1 H2. subst x post2. exfalso.
    inversion F1 as [|? ? Hy _]; subst.
    apply Forall_app in G2 as [_ G2]. inversion G2 as [|? ? Hi _]; subst.
    apply (Qlt_irrefl (trend_score partial_ratio narration i2)).
    eapply Qlt_le_trans; eassumption.
  - injection H as H1 H2. subst y. inversion F1; subst. inversion F2; subst.
    eapply IH; eassumption.
Qed.

(** C6: when no key of the trend map scores above 70 the result is the
    empty string; when the best score is above 70 the result is the
    ledger of the first key that reaches the best score (every earlier
    key scores strictly less, every later key at most as much). *)
Theorem trend_mapping_threshold_and_ties (narration : str) (trend_map : list (str * str)) :
  (Forall (fun item => trend_score partial_ratio narration item <= 70) trend_map ->
   apply_trend_mapping partial_ratio narration trend_map = lit "")
  /\ (forall pre keyword ledger post,
        trend_map = pre ++ (keyword, ledger) :: post ->
        70 < trend_score partial_ratio narration (keyword, ledger) ->
        Forall (fun item => trend_score partial_ratio narration item < trend_score partial_ratio narration (keyword, ledger)) pre ->
        Forall (fun item => trend_score partial_ratio narration item <= trend_score partial_ratio narration (keyword, ledger)) post ->
        apply_trend_mapping partial_ratio narration trend_map = ledger).
Proof.
  unfold apply_trend_mapping.
  pose proof (trend_fold narration trend_map (lit "") 0) as Hf. cbv zeta in Hf.
  split.
  - intro Hall.
    destruct Hf as [[_ ->] | [pre [k [l [post [Htm [-> [_ _]]]]]]]].
    + reflexivity.
    + assert (trend_score partial_ratio narration (k, l) <= 70) as Hle.
      { rewrite Forall_forall in Hall. apply Hall. rewrite Htm.
        apply in_or_app. right. left. reflexivity. }
      apply Qle_bool_iff in Hle. rewrite Hle. reflexivity.
  - intros pre keyword ledger post Htm Hgt Hpre Hpost.
    destruct Hf as [[Hall ->] | [pre' [k [l [post' [Htm' [-> [_ [Hpre' Hpost']]]]]]]]].
    + exfalso. rewrite Forall_forall in Hall.
      assert (trend_score partial_ratio narration (keyword, ledger) <= 0) as Hle.
      { apply Hall. rewrite Htm. apply in_or_app. right. left. reflexivity. }
      apply (Qlt_irrefl 70). eapply Qlt_le_trans; [exact Hgt|].
      eapply Qle_trans; [exact Hle | discriminate].
    + assert ((keyword, ledger) = (k, l)) as Heq.
      { eapply first_best_unique; [| eassumption ..]. congruence. }
      injection Heq as <- <-.
      destruct (Qle_bool (trend_score partial_ratio narration (keyword, ledger)) 70) eqn:E.
      * apply Qle_bool_iff in E. exfalso.
        apply (Qlt_irrefl 70). eapply Qlt_le_trans; eassumption.
      * reflexivity.
Qed.

End ClassificationProperties.

(** A key scoring exactly 70 gives no ledger; a later key scoring 71 gives
    its ledger. *)
Lemma trend_mapping_threshold_and_ties_witness :
  apply_trend_mapping example_ratio (lit "x") [(lit "alpha", lit "Rent")] = lit ""
  /\ apply_trend_mapping example_ratio (lit "x")
       [(lit "alpha", lit "Rent"); (lit "beta", lit "Fuel"); (lit "Beta", lit "Tax")]
     = lit "Fuel".
Proof.
  split.
  - apply (proj1 (trend_mapping_threshold_and_ties example_ratio (lit "x")
                    [(lit "alpha", lit "Rent")])).
    repeat constructor; vm_compute; discriminate.
  - apply (proj2 (trend_mapping_threshold_and_ties example_ratio (lit "x")
                    [(lit "alpha", lit "Rent"); (lit "beta", lit "Fuel"); (lit "Beta", lit "Tax")])
             [(lit "alpha", lit "Rent")] (lit "beta") (lit "Fuel") [(lit "Beta", lit "Tax")]).
    + reflexivity.
    + vm_compute. reflexivity.
    + repeat constructor; vm_compute; reflexivity.
    + repeat constructor; vm_compute; discriminate.
Defined.

(** ** Greedy runs *)

Lemma span_spec (p : ascii -> bool) (s : str) :
  forall run rest, span p s = (run, rest) ->
    s = run ++ rest /\ forallb p run = true
    /\ match rest with [] => True | c :: _ => p c = false end.
Proof.
  induction s as [|c s IH]; intros run rest H; simpl in H.
  - injection H as <- <-. repeat split.
  - destruct (p c) eqn:E.
    + destruct (span p s) as [run' rest'] eqn:Es. injection H as <- <-.
      destruct (IH run' rest' eq_refl) as [H1 [H2 H3]].
      simpl. rewrite E, H2. repeat split; [f_equal; exact H1 | exact H3].
    + injection H as <- <-. repeat split. exact E.
Qed.

Lemma span_all (p : ascii -> bool) (s : str) :
  forallb p s = true -> span p s = (s, []).
Proof.
  induction s as [|c s IH]; simpl; [reflexivity|].
  intro H. apply andb_true_iff in H as [Hc Hs]. rewrite Hc, (IH Hs). reflexivity.
Qed.

Lemma span_app_stop (p : ascii -> bool) (run : str) (c : ascii) (rest : str) :
  forallb p run = true -> p c = false -> span p (run ++ c :: rest) = (run, c :: rest).
Proof.
  intros Hr Hc. induction run as [|x run IH]; simpl.
  - rewrite Hc. reflexivity.
  - simpl in Hr. apply andb_true_iff in Hr as [Hx Hr]. rewrite Hx, (IH Hr). reflexivity.
Qed.

(** ** The noise filter *)

Lemma nonempty_false {A : Type} (l : list A) : negb (nonempty l) = true <-> l = [].
Proof. destruct l; simpl; split; congruence. Qed.

Lemma lower_char_small (c w : ascii) :
  between 97 122 w = true -> ascii_eqb (lower_char c) w = same_letter c w.
Proof.
  destruct w as [[] [] [] [] [] [] [] []]; intro H; vm_compute in H; try discriminate H;
    clear H; destruct c as [[] [] [] [] [] [] [] []]; vm_compute; reflexivity.
Qed.

Lemma lower_small (mid word : str) :
  Forall (fun w => between 97 122 w = true) word ->
  lower mid = word <-> Forall2 (fun c w => same_letter c w = true) mid word.
Proof.
  unfold lower. revert word. induction mid as [|c mid IH]; intros word Hw.
  - split; intro H.
    + cbn in H. subst word. constructor.
    + inversion H. reflexivity.
  - destruct word as [|w word].
    + split; intro H; [discriminate | inversion H].
    + inversion Hw as [|? ? Hs Hw']; subst. cbn [map]. split; intro H.
      * injection H as Hc Hm. constructor.
        -- rewrite <- (lower_char_small c w Hs). apply ascii_eqb_eq. exact Hc.
        -- apply IH; assumption.
      * inversion H as [|? ? ? ? Hc Hm]; subst.
        rewrite <- (lower_char_small c w Hs) in Hc. apply ascii_eqb_eq in Hc.
        apply (IH word Hw') in Hm. congruence.
Qed.

Lemma contains_lower_iff (word line : str) :
  Forall (fun w => between 97 122 w = true) word ->
  contains word (lower line) = true <-> occurs_ignoring_case word line.
Proof.
  intro Hw. rewrite contains_iff. unfold occurs_ignoring_case. split.
  - intros [pre [post H]]. unfold lower in H.
    apply map_eq_app in H as [l1 [l2 [-> [H1 H2]]]].
    apply map_eq_app in H2 as [l3 [l4 [-> [H3 H4]]]].
    exists l1, l3, l4. split; [reflexivity|]. apply lower_small; assumption.
  - intros [pre [mid [post [-> H]]]]. apply lower_small in H; [|exact Hw].
    exists (lower pre), (lower post).
    unfold lower in *. rewrite !map_app, H. reflexivity.
Qed.

Lemma is_separator_char_iff (c : ascii) :
  is_separator_char c = true
  <-> c = "."%char \/ c = "-"%char \/ c = "_"%char \/ c = "="%char.
Proof.
  unfold is_separator_char. rewrite !orb_true_iff, !ascii_eqb_eq. tauto.
Qed.

Lemma newline_is_space : is_space newline = true.
Proof. reflexivity. Qed.

Lemma stripped_at_end (line pre rest : str) :
  strip line = pre ++ rest -> at_end rest = true -> rest = [].
Proof.
  intros H E. destruct rest as [|c [|d rest]]; [reflexivity | | discriminate].
  simpl in E. apply ascii_eqb_eq in E. subst c.
  apply strip_last in H. rewrite newline_is_space in H. discriminate.
Qed.

Lemma match_separator_iff (line : str) :
  match_separator (strip line) = true <-> separator_line (strip line).
Proof.
  unfold match_separator, separator_line.
  destruct (span is_separator_char (strip line)) as [run rest] eqn:E.
  destruct (span_spec _ _ _ _ E) as [Hs [Hrun Hrest]].
  rewrite andb_true_iff, Nat.leb_le. split.
  - intros [Hlen Hend].
    pose proof (stripped_at_end _ _ _ Hs Hend) as ->.
    rewrite app_nil_r in Hs. rewrite Hs.
    split; [exact Hlen|]. apply Forall_forall. intros c Hc.
    apply is_separator_char_iff. rewrite forallb_forall in Hrun. apply Hrun. exact Hc.
  - intros [Hlen Hall].
    assert (forallb is_separator_char (strip line) = true) as Hb.
    { apply forallb_forall. intros c Hc. apply is_separator_char_iff.
      rewrite Forall_forall in Hall. apply Hall. exact Hc. }
    rewrite (span_all _ _ Hb) in E. injection E as <- <-.
    split; [exact Hlen | reflexivity].
Qed.

Lemma is_noise_iff (line : str) :
  is_noise (strip line) = true <-> noise_line (strip line).
Proof.
  unfold is_noise, noise_line.
  rewrite !orb_true_iff, nonempty_false, match_separator_iff.
  rewrite !contains_lower_iff by (repeat constructor).
  tauto.
Qed.

Lemma step_noise (st : walker) (line : str) :
  is_noise (strip line) = true -> step st line = st.
Proof. intro H. unfold step. rewrite H. reflexivity. Qed.

Lemma step_not_noise_moves (line : str) :
  is_noise (strip line) = false -> step example_state line <> example_state.
Proof.
  intros H Heq. unfold step in Heq. rewrite H in Heq.
  apply (f_equal narration_buffer) in Heq.
  destruct (match_date_prefix (strip line)).
  - cbn [flush example_state entries narration_buffer nonempty lit list_ascii_of_string andb] in Heq.
    destruct (parse_transaction_line (strip line) (prev_balance example_state)) as [[r|] b];
      simpl in Heq; discriminate.
  - simpl in Heq. discriminate.
Qed.


(** ** Header lines that fail to parse *)

Lemma parse_none_keeps_balance (line : str) (prev : option float) :
  fst (parse_transaction_line line prev) = None ->
  snd (parse_transaction_line line prev) = prev.
Proof.
  unfold parse_transaction_line.
  destruct (match_date_prefix line) as [ds|]; [|reflexivity].
  destruct (strptime ds) as [d|]; [|reflexivity].
  destruct (search_balance (strip (skipn (length ds) line))) as [[[start amt] g2]|];
    [|reflexivity].
  destruct prev as [p|]; simpl.
  - destruct (float_lt zero _); [discriminate|].
    destruct (float_lt _ zero); discriminate.
  - discriminate.
Qed.

(** A line fails to parse exactly on a bad date or a missing balance. *)
Lemma parse_none_iff (line : str) (prev : option float) (date_str : str) :
  match_date_prefix line = Some date_str ->
  fst (parse_transaction_line line prev) = None
  <-> strptime date_str = None
      \/ search_balance (strip (skipn (length date_str) line)) = None.
Proof.
  intro Hd. unfold parse_transaction_line. rewrite Hd.
  destruct (strptime date_str) as [d|]; [|simpl; tauto].
  destruct (search_balance (strip (skipn (length date_str) line))) as [[[start amt] g2]|];
    [|simpl; tauto].
  split.
  - destruct prev as [p|]; simpl.
    + destruct (float_lt zero _); [discriminate|].
      destruct (float_lt _ zero); discriminate.
    + discriminate.
  - intros [H|H]; discriminate.
Qed.

Lemma append_to_last_cons (e e' : Transaction) (es : list Transaction) (text : str) :
  append_to_last (e :: e' :: es) text = e :: append_to_last (e' :: es) text.
Proof. reflexivity. Qed.

Lemma append_to_last_snoc (es : list Transaction) (e : Transaction) (text : str) :
  append_to_last (es ++ [e]) text = es ++ [append_particulars e text].
Proof.
  induction es as [|x es IH]; [reflexivity|].
  destruct es as [|y es]; [reflexivity|].
  change ((x :: y :: es) ++ [e]) with (x :: y :: (es ++ [e])).
  rewrite append_to_last_cons. cbn [app]. f_equal. exact IH.
Qed.

Lemma length_append_to_last (es : list Transaction) (text : str) :
  length (append_to_last es text) = length es.
Proof.
  induction es as [|e es _] using rev_ind; [reflexivity|].
  rewrite append_to_last_snoc, !length_app. reflexivity.
Qed.

Lemma length_flush (es : list Transaction) (buffer : str) :
  length (fst (flush es buffer)) = length es.
Proof.
  unfold flush. destruct (nonempty buffer && nonempty es)%bool; simpl;
    [apply length_append_to_last | reflexivity].
Qed.

Lemma flush_buffer (es : list Transaction) (buffer : str) :
  snd (flush es buffer) = buffer \/ snd (flush es buffer) = [].
Proof.
  unfold flush. destruct (nonempty buffer && nonempty es)%bool; simpl; auto.
Qed.

(** C9: a line that matches the date pattern and fails to parse adds no
    record, leaves the previous balance as it was and puts nothing into
    the buffer.  When it is not noise, the state it leaves is the one the
    flush of the pending buffer onto the last record gives, which does not
    depend on the line; when it is noise it is skipped before that. *)
Theorem failed_header_line_is_discarded (st : walker) (line date_str : str) :
  match_date_prefix (strip line) = Some date_str ->
  fst (parse_transaction_line (strip line) (prev_balance st)) = None ->
  step st line
  = (if is_noise (strip line) then st
     else {| entries := fst (flush (entries st) (narration_buffer st));
             prev_balance := prev_balance st;
             narration_buffer := snd (flush (entries st) (narration_buffer st)) |})
  /\ length (entries (step st line)) = length (entries st)
  /\ prev_balance (step st line) = prev_balance st
  /\ (narration_buffer (step st line) = narration_buffer st
      \/ narration_buffer (step st line) = []).
Proof.
  intros Hd Hp.
  assert (step st line
          = (if is_noise (strip line) then st
             else {| entries := fst (flush (entries st) (narration_buffer st));
                     prev_balance := prev_balance st;
                     narration_buffer := snd (flush (entries st) (narration_buffer st)) |}))
    as Hs.
  { unfold step. destruct (is_noise (strip line)); [reflexivity|].
    rewrite Hd.
    pose proof (parse_none_keeps_balance _ _ Hp) as Hb.
    destruct (flush (entries st) (narration_buffer st)) as [es buffer].
    destruct (parse_transaction_line (strip line) (prev_balance st)) as [parsed prev].
    simpl in Hp, Hb. subst parsed prev. reflexivity. }
  split; [exact Hs|]. rewrite Hs.
  destruct (is_noise (strip line)); cbn [entries prev_balance narration_buffer].
  - auto.
  - split; [apply length_flush|]. split; [reflexivity | apply flush_buffer].
Qed.

Lemma failed_header_line_is_discarded_witness :
  step example_state (lit "31-02-24 bad 1.00Cr")
  = {| entries := [{| Date := lit "01-01-2024"; Particulars := lit "PAY REF 1";
                      Deposit := zero; Withdrawals := zero;
                      Closing_Balance := lit "100.00Cr" |}];
       prev_balance := Some (float_of (lit "100.00"));
       narration_buffer := [] |}.
Proof.
  refine (proj1 (failed_header_line_is_discarded example_state
                   (lit "31-02-24 bad 1.00Cr") (lit "31-02-24") _ _)).
  - reflexivity.
  - reflexivity.
Defined.

(** ** Lines before the first transaction *)

Lemma strip_space_cons (s : str) : strip (lit " " ++ s) = strip s.
Proof. reflexivity. Qed.

(** A continuation line before the first header is kept through the header
    and appended to the first record by the next flush. *)
Lemma leading_line_kept (l h : str) (r : Transaction) (b : option float) :
  is_noise (strip l) = false ->
  match_date_prefix (strip l) = None ->
  is_noise (strip h) = false ->
  parse_transaction_line (strip h) None = (Some r, b) ->
  finish (walk_lines initial [l; h]) = [append_particulars r (lit " " ++ strip l)].
Proof.
  intros Nl Dl Nh Ph.
  assert (match_date_prefix (strip h) <> None) as Dh.
  { intro E. unfold parse_transaction_line in Ph. rewrite E in Ph. discriminate. }
  unfold walk_lines. cbn [fold_left].
  unfold step at 2. rewrite Nl, Dl. cbn [initial entries prev_balance narration_buffer app].
  unfold step. rewrite Nh.
  destruct (match_date_prefix (strip h)) as [ds|]; [|congruence].
  cbn [entries prev_balance narration_buffer].
  unfold flush at 1. rewrite andb_false_r. rewrite Ph.
  unfold finish, flush. cbn [entries narration_buffer app nonempty andb fst].
  rewrite strip_space_cons, !strip_idem. reflexivity.
Qed.

(** C3: a line standing before the first transaction header is kept in the
    buffer, which the first header leaves alone for want of a record; the
    next flush puts it on the first record.  Here "OPENING BALANCE" ends up
    in the Particulars of the only record. *)
Theorem leading_line_reaches_first_record :
  map Particulars
      (extract_transactions [unlines [lit "OPENING BALANCE"; lit "01-01-24 PAY 100.00Cr"]])
  = [lit "PAY OPENING BALANCE"].
Proof. vm_compute. reflexivity. Qed.

(** ** Lines that give no record and are not buffered *)

Lemma buffer_grows (buffer text : str) : buffer <> buffer ++ lit " " ++ text.
Proof.
  intro H. apply (f_equal (@length ascii)) in H.
  rewrite !length_app in H. cbn [lit list_ascii_of_string length] in H. lia.
Qed.

Lemma step_failed_header (st : walker) (line : str) :
  is_noise (strip line) = false ->
  match_date_prefix (strip line) <> None ->
  fst (parse_transaction_line (strip line) (prev_balance st)) = None ->
  entries (step st line) = fst (flush (entries st) (narration_buffer st))
  /\ narration_buffer (step st line) = snd (flush (entries st) (narration_buffer st)).
Proof.
  intros Hn Hd Hp. unfold step. rewrite Hn.
  destruct (match_date_prefix (strip line)); [|congruence].
  destruct (flush (entries st) (narration_buffer st)) as [es buffer].
  destruct (parse_transaction_line (strip line) (prev_balance st)) as [parsed prev].
  cbn [fst] in Hp. subst parsed. split; reflexivity.
Qed.

Lemma failed_header_not_recorded (st : walker) (line : str) :
  failed_header (strip line) -> adds_no_record st line /\ not_buffered st line.
Proof.
  intros [Hd Hp]. unfold adds_no_record, not_buffered.
  destruct (is_noise (strip line)) eqn:Hn.
  - rewrite (step_noise st line Hn). split; [reflexivity | apply buffer_grows].
  - destruct (step_failed_header st line Hn Hd (Hp (prev_balance st))) as [-> ->].
    split; [apply length_flush|].
    destruct (flush_buffer (entries st) (narration_buffer st)) as [-> | ->].
    + apply buffer_grows.
    + intro H. symmetry in H. apply app_eq_nil in H as [_ H]. discriminate H.
Qed.

(** C7: the noise filter skips a line, leaving entries, previous balance
    and buffer as they were whatever they are, exactly when the trimmed
    line is empty, contains "account", "page" or "total" in any mix of
    cases, or is made of five or more separator characters.  The lines
    that give no record and are not buffered are these and, besides, the
    lines that start with a date token and fail to parse. *)
Theorem noise_filter_skips_exactly_noise (line : str) :
  ((forall st, step st line = st) <-> noise_line (strip line))
  /\ ((forall st, adds_no_record st line /\ not_buffered st line)
      <-> noise_line (strip line) \/ failed_header (strip line)).
Proof.
  rewrite <- is_noise_iff. split; split.
  - intro H. destruct (is_noise (strip line)) eqn:E; [reflexivity|].
    exfalso. exact (step_not_noise_moves line E (H example_state)).
  - intros H st. apply step_noise. exact H.
  - intro H. destruct (is_noise (strip line)) eqn:Hn; [left; reflexivity | right].
    destruct (match_date_prefix (strip line)) as [date_str|] eqn:Hd.
    + split; [rewrite Hd; discriminate|]. intro prev.
      destruct (H {| entries := []; prev_balance := prev; narration_buffer := [] |})
        as [Hr _].
      unfold adds_no_record, step in Hr. rewrite Hn, Hd in Hr.
      cbn [entries narration_buffer prev_balance flush nonempty andb] in Hr.
      destruct (parse_transaction_line (strip line) prev) as [[r|] b];
        [discriminate Hr | reflexivity].
    + exfalso. destruct (H initial) as [_ Hb]. apply Hb.
      unfold step. rewrite Hn, Hd. cbn [narration_buffer].
      rewrite strip_idem. reflexivity.
  - intros [H|H] st.
    + unfold adds_no_record, not_buffered. rewrite (step_noise st line H).
      split; [reflexivity | apply buffer_grows].
    + apply failed_header_not_recorded. exact H.
Qed.

(** A line with a date that does not exist gives no record and is not
    buffered, in any state, and is no noise line. *)
Lemma noise_filter_counterexample :
  (forall st, adds_no_record st (lit "31-02-24 bad 1.00Cr")
              /\ not_buffered st (lit "31-02-24 bad 1.00Cr"))
  /\ ~ noise_line (strip (lit "31-02-24 bad 1.00Cr")).
Proof.
  split.
  - intro st. apply failed_header_not_recorded. split.
    + vm_compute. discriminate.
    + intro prev.
      apply (parse_none_iff _ prev (lit "31-02-24")); [reflexivity|].
      left. reflexivity.
  - intro H. apply is_noise_iff in H. vm_compute in H. discriminate H.
Qed.

(** ** The balance pattern *)

Lemma polarity_suffix_spec (s t s' : str) :
  polarity_suffix s = Some (t, s') ->
  (t = lit "Cr" \/ t = lit "Dr") /\ s = t ++ s'.
Proof.
  unfold polarity_suffix.
  destruct (startswith (lit "Cr") s) eqn:E1.
  - intro H. injection H as <- <-. split; [left; reflexivity|].
    apply startswith_iff in E1 as [post ->]. reflexivity.
  - destruct (startswith (lit "Dr") s) eqn:E2; [|discriminate].
    intro H. injection H as <- <-. split; [right; reflexivity|].
    apply startswith_iff in E2 as [post ->]. reflexivity.
Qed.

Lemma match_balance_here_spec (s amt : str) (group2 : option str) :
  match_balance_here s = Some (amt, group2) ->
  amount_string amt
  /\ (group2 = None \/ group2 = Some (lit "Cr") \/ group2 = Some (lit "Dr"))
  /\ exists tail, s = amt ++ group_text group2 ++ tail /\ at_end tail = true.
Proof.
  unfold match_balance_here.
  destruct s as [|d s1]; [discriminate|].
  destruct (is_digit d) eqn:Ed; [|discriminate].
  destruct (span is_digit_or_comma s1) as [run s2] eqn:Es.
  destruct (span_spec _ _ _ _ Es) as [Hs1 [Hrun _]].
  destruct s2 as [|dot [|f1 [|f2 s3]]]; try discriminate.
  destruct (ascii_eqb dot "." && is_digit f1 && is_digit f2)%bool eqn:Ef; [|discriminate].
  apply andb_true_iff in Ef as [Ef Ef2]. apply andb_true_iff in Ef as [Edot Ef1].
  apply ascii_eqb_eq in Edot. subst dot s1.
  assert (amount_string (d :: run ++ ["."%char; f1; f2])) as Hamt.
  { exists d, run, f1, f2. repeat split; assumption. }
  assert (forall tail, d :: run ++ "."%char :: f1 :: f2 :: tail
                       = (d :: run ++ ["."%char; f1; f2]) ++ tail) as Hsplit.
  { intro tail. simpl. rewrite <- app_assoc. reflexivity. }
  destruct (polarity_suffix s3) as [[t s4]|] eqn:Ep.
  - destruct (polarity_suffix_spec _ _ _ Ep) as [Ht Hs3].
    destruct (at_end s4) eqn:E4.
    + intro H. injection H as <- <-. split; [exact Hamt|].
      split; [destruct Ht as [-> | ->]; auto|].
      exists s4. split; [|exact E4]. rewrite Hsplit, Hs3. reflexivity.
    + destruct (at_end s3) eqn:E3; [|discriminate].
      intro H. injection H as <- <-. split; [exact Hamt|]. split; [auto|].
      exists s3. split; [|exact E3]. rewrite Hsplit. reflexivity.
  - destruct (at_end s3) eqn:E3; [|discriminate].
    intro H. injection H as <- <-. split; [exact Hamt|]. split; [auto|].
    exists s3. split; [|exact E3]. rewrite Hsplit. reflexivity.
Qed.

Lemma search_balance_from_spec (s : str) :
  forall pos start amt group2,
    search_balance_from pos s = Some (start, amt, group2) ->
    amount_string amt
    /\ (group2 = None \/ group2 = Some (lit "Cr") \/ group2 = Some (lit "Dr"))
    /\ exists pre tail,
         s = pre ++ amt ++ group_text group2 ++ tail
         /\ start = (pos + length pre)%nat /\ at_end tail = true.
Proof.
  induction s as [|c s IH]; intros pos start amt group2.
  - simpl. discriminate.
  - cbn [search_balance_from].
    destruct (match_balance_here (c :: s)) as [[amt' g']|] eqn:Em.
    + intro H. injection H as <- <- <-.
      destruct (match_balance_here_spec _ _ _ Em) as [Ha [Hg [tail [Hs He]]]].
      split; [exact Ha|]. split; [exact Hg|].
      exists [], tail. split; [exact Hs|]. split; [simpl; lia | exact He].
    + intro H. destruct (IH _ _ _ _ H) as [Ha [Hg [pre [tail [Hs [Hp He]]]]]].
      split; [exact Ha|]. split; [exact Hg|].
      exists (c :: pre), tail. split; [rewrite Hs; reflexivity|].
      split; [simpl; lia | exact He].
Qed.

(** The trimmed text stands in its string between two runs of whitespace. *)
Lemma strip_decompose (s : str) :
  exists pre post, s = pre ++ strip s ++ post
                   /\ forallb is_space pre = true /\ forallb is_space post = true.
Proof.
  destruct (lstrip_suffix s) as [pre [H1 H2]].
  destruct (lstrip_suffix (rev (lstrip s))) as [p [H3 H4]].
  exists pre, (rev p). unfold strip, rstrip. split; [|split].
  - rewrite <- rev_app_distr, <- H3, rev_involutive. exact H1.
  - exact H2.
  - rewrite forallb_forall in *. intros c Hc. apply H4. apply in_rev. exact Hc.
Qed.

(** What a successful parse went through. *)
Lemma parse_some_inv (line : str) (prev : option float) (r : Transaction) (b : option float) :
  parse_transaction_line line prev = (Some r, b) ->
  exists date_str date_obj start amt group2,
    match_date_prefix line = Some date_str
    /\ strptime date_str = Some date_obj
    /\ search_balance (strip (skipn (length date_str) line)) = Some (start, amt, group2)
    /\ Closing_Balance r
       = amt ++ match group2 with Some t => t | None => lit "Cr" end.
Proof.
  unfold parse_transaction_line.
  destruct (match_date_prefix line) as [ds|] eqn:E1; [|discriminate].
  destruct (strptime ds) as [d|] eqn:E2; [|discriminate].
  destruct (search_balance (strip (skipn (length ds) line))) as [[[start amt] g2]|] eqn:E3;
    [|discriminate].
  intro H. exists ds, d, start, amt, g2.
  split; [reflexivity|]. split; [exact E2|]. split; [exact E3|].
  destruct prev as [p|]; cbn [fst snd] in H.
  - destruct (float_lt zero _); [injection H as <- _; reflexivity|].
    destruct (float_lt _ zero); injection H as <- _; reflexivity.
  - injection H as <- _. reflexivity.
Qed.

(** When [parse_transaction_line] returns a record, the line ends, up to
    trailing whitespace, with a balance figure and an optional "Cr" or
    "Dr"; the Closing Balance is that figure followed by the polarity
    letters of the line, or by "Cr" when the line has none. *)
Lemma closing_balance_of_parsed
    (line : str) (prev : option float) (r : Transaction) (b : option float) :
  parse_transaction_line line prev = (Some r, b) ->
  exists head amt polarity trail,
    line = head ++ amt ++ polarity ++ trail
    /\ forallb is_space trail = true
    /\ amount_string amt
    /\ ((polarity = lit "Cr" \/ polarity = lit "Dr")
        /\ Closing_Balance r = amt ++ polarity
        \/ polarity = [] /\ Closing_Balance r = amt ++ lit "Cr").
Proof.
  intro H.
  destruct (parse_some_inv _ _ _ _ H) as [ds [d [start [amt [g2 [_ [_ [Hs Hc]]]]]]]].
  destruct (search_balance_from_spec _ _ _ _ _ Hs) as [Ha [Hg [pre [tail [Hr [_ He]]]]]].
  assert (tail = []) as ->.
  { apply (stripped_at_end (skipn (length ds) line) (pre ++ amt ++ group_text g2) tail);
      [|exact He]. rewrite Hr, <- !app_assoc. reflexivity. }
  rewrite app_nil_r in Hr.
  destruct (strip_decompose (skipn (length ds) line)) as [ws [trail [Hd [_ Ht]]]].
  exists (firstn (length ds) line ++ ws ++ pre), amt, (group_text g2), trail.
  split; [|split; [exact Ht | split; [exact Ha|]]].
  - rewrite <- (firstn_skipn (length ds) line) at 1. rewrite Hd, Hr.
    rewrite <- !app_assoc. reflexivity.
  - destruct Hg as [-> | [-> | ->]]; simpl group_text.
    + right. split; [reflexivity | exact Hc].
    + left. split; [left; reflexivity | exact Hc].
    + left. split; [right; reflexivity | exact Hc].
Qed.

(** The pattern finds a balance in every string that ends with one. *)
Lemma match_balance_here_complete (amt polarity tail : str) :
  amount_string amt ->
  polarity = [] \/ polarity = lit "Cr" \/ polarity = lit "Dr" ->
  at_end tail = true ->
  exists group2,
    match_balance_here (amt ++ polarity ++ tail) = Some (amt, group2)
    /\ group_text group2 = polarity.
Proof.
  intros [d [run [f1 [f2 [-> [Hd [Hrun [H1 H2]]]]]]]] Hp He.
  unfold match_balance_here. cbn [app]. rewrite Hd.
  rewrite <- app_assoc. cbn [app].
  rewrite (span_app_stop is_digit_or_comma run "."%char) by (assumption || reflexivity).
  rewrite H1, H2, ascii_eqb_refl. cbn [andb].
  destruct Hp as [-> | [-> | ->]].
  - exists None. split; [|reflexivity]. cbn [app].
    destruct tail as [|c [|c' tail]]; [reflexivity | | discriminate].
    simpl in He. apply ascii_eqb_eq in He. subst c. reflexivity.
  - exists (Some (lit "Cr")). split; [|reflexivity].
    change (polarity_suffix (lit "Cr" ++ tail)) with (Some (lit "Cr", tail)).
    cbv iota beta. rewrite He. reflexivity.
  - exists (Some (lit "Dr")). split; [|reflexivity].
    change (polarity_suffix (lit "Dr" ++ tail)) with (Some (lit "Dr", tail)).
    cbv iota beta. rewrite He. reflexivity.
Qed.

Lemma search_balance_from_complete (pre s : str) :
  match_balance_here s <> None ->
  forall pos, search_balance_from pos (pre ++ s) <> None.
Proof.
  intro H. induction pre as [|c pre IH]; intro pos.
  - cbn [app]. destruct s as [|c s].
    + exfalso. apply H. reflexivity.
    + cbn [search_balance_from].
      destruct (match_balance_here (c :: s)) as [[amt g2]|]; [discriminate | congruence].
  - cbn [app search_balance_from].
    destruct (match_balance_here (c :: pre ++ s)) as [[amt g2]|]; [discriminate | apply IH].
Qed.

(** A line with a real date whose trimmed remainder ends with a balance
    figure, with or without polarity letters, gives a record. *)
Lemma parse_transaction_line_accepts
    (line date_str pre amt polarity : str) (date_obj : date) (prev : option float) :
  match_date_prefix line = Some date_str ->
  strptime date_str = Some date_obj ->
  strip (skipn (length date_str) line) = pre ++ amt ++ polarity ->
  amount_string amt ->
  polarity = [] \/ polarity = lit "Cr" \/ polarity = lit "Dr" ->
  exists r, fst (parse_transaction_line line prev) = Some r.
Proof.
  intros Hd Hs Hr Ha Hp.
  destruct (fst (parse_transaction_line line prev)) as [r|] eqn:E; [exists r; reflexivity|].
  exfalso. apply (parse_none_iff line prev date_str Hd) in E. destruct E as [E|E].
  - congruence.
  - revert E. unfold search_balance. rewrite Hr.
    apply search_balance_from_complete.
    destruct (match_balance_here_complete amt polarity [] Ha Hp eq_refl) as [g2 [Hm _]].
    rewrite app_nil_r in Hm. rewrite Hm. discriminate.
Qed.

(** ** Where the balance figure starts *)

(** What follows the dot of a balance figure holds no dot. *)
Lemma no_dot_after_figure (f1 f2 : ascii) (polarity tail : str) :
  is_digit f1 = true -> is_digit f2 = true ->
  polarity = [] \/ polarity = lit "Cr" \/ polarity = lit "Dr" ->
  at_end tail = true ->
  ~ In "."%char ([f1; f2] ++ polarity ++ tail).
Proof.
  intros H1 H2 Hp Ht Hin.
  assert (is_digit "." = false) as Hd by reflexivity.
  cbn [app In] in Hin.
  destruct Hin as [E|[E|Hin]]; [congruence | congruence |].
  apply in_app_or in Hin as [Hin|Hin].
  - destruct Hp as [-> | [-> | ->]]; simpl in Hin;
      repeat (destruct Hin as [Hin|Hin]; [discriminate|]); exact Hin.
  - destruct tail as [|c [|c' tail]]; simpl in Ht, Hin; try discriminate.
    + exact Hin.
    + apply ascii_eqb_eq in Ht. subst c.
      destruct Hin as [Hin|Hin]; [discriminate | exact Hin].
Qed.

(** The integer part of the figure a string ends with is determined. *)
Lemma figure_start_unique
    (p p' : str) (f1 f2 f1' f2' : ascii) (polarity polarity' tail tail' : str) :
  p ++ "."%char :: [f1; f2] ++ polarity ++ tail
  = p' ++ "."%char :: [f1'; f2'] ++ polarity' ++ tail' ->
  ~ In "."%char ([f1; f2] ++ polarity ++ tail) ->
  ~ In "."%char ([f1'; f2'] ++ polarity' ++ tail') ->
  p = p'.
Proof.
  intros H N N'. cbn [app] in H, N, N'.
  apply app_eq_app in H as [l [[Hp Hl] | [Hp Hl]]].
  - destruct l as [|x l]; [rewrite app_nil_r in Hp; exact Hp|].
    exfalso. apply N'. injection Hl as _ Hl. rewrite Hl.
    apply in_or_app. right. left. reflexivity.
  - destruct l as [|x l]; [rewrite app_nil_r in Hp; symmetry; exact Hp|].
    exfalso. apply N. injection Hl as _ Hl. rewrite Hl.
    apply in_or_app. right. left. reflexivity.
Qed.

(** A match that reaches the end of a string which ends with a figure
    starts with a digit and runs over digits and commas up to that
    figure. *)
Lemma match_balance_here_start (x : ascii) (pre amt polarity : str) :
  amount_string amt ->
  polarity = [] \/ polarity = lit "Cr" \/ polarity = lit "Dr" ->
  match_balance_here ((x :: pre) ++ amt ++ polarity) <> None ->
  is_digit x = true /\ forallb is_digit_or_comma pre = true.
Proof.
  intros [d [run [f1 [f2 [-> [Hd [Hrun [H1 H2]]]]]]]] Hp Hm.
  destruct (match_balance_here _) as [[amt' g2']|] eqn:E; [|congruence].
  destruct (match_balance_here_spec _ _ _ E)
    as [[d' [run' [f1' [f2' [-> [Hd' [Hrun' [H1' H2']]]]]]]] [Hg [tail [Hs He]]]].
  assert ((x :: pre) ++ d :: run = d' :: run') as Heq.
  { apply (figure_start_unique _ _ f1 f2 f1' f2' polarity (group_text g2') [] tail).
    - transitivity ((x :: pre) ++ (d :: run ++ ["."%char; f1; f2]) ++ polarity).
      + rewrite app_nil_r. cbn [app]. rewrite <- !app_assoc. reflexivity.
      + rewrite Hs. cbn [app]. rewrite <- !app_assoc. reflexivity.
    - apply no_dot_after_figure; auto.
    - apply no_dot_after_figure; auto.
      destruct Hg as [-> | [-> | ->]]; simpl; auto. }
  cbn [app] in Heq. injection Heq as -> Hr. split; [exact Hd'|].
  rewrite <- Hr, forallb_app in Hrun'. apply andb_true_iff in Hrun' as [Hpre _].
  exact Hpre.
Qed.

Lemma length_figure_head (pre : str) : (length (figure_head pre) <= length pre)%nat.
Proof.
  induction pre as [|c pre IH]; [reflexivity|].
  cbn [figure_head]. destruct (is_digit c && forallb is_digit_or_comma pre)%bool.
  - reflexivity.
  - cbn [length]. lia.
Qed.

Lemma figure_head_amount (pre amt : str) :
  amount_string amt -> amount_string (figure_head pre ++ amt).
Proof.
  intro Ha. induction pre as [|c pre IH]; [exact Ha|].
  cbn [figure_head].
  destruct (is_digit c && forallb is_digit_or_comma pre)%bool eqn:E; [|exact IH].
  apply andb_true_iff in E as [Hc Hpre].
  destruct Ha as [d [run [f1 [f2 [-> [Hd [Hrun [H1 H2]]]]]]]].
  exists c, (pre ++ d :: run), f1, f2. split.
  - cbn [app]. rewrite <- app_assoc. reflexivity.
  - repeat split; try assumption.
    rewrite forallb_app, Hpre. cbn [forallb andb].
    unfold is_digit_or_comma at 1. rewrite Hd, Hrun. reflexivity.
Qed.

(** The search finds the whole figure the string ends with: it starts at
    the first digit from which digits and commas run up to the decimals. *)
Lemma search_balance_from_leftmost (pre amt polarity : str) :
  amount_string amt ->
  polarity = [] \/ polarity = lit "Cr" \/ polarity = lit "Dr" ->
  forall pos, exists group2,
    search_balance_from pos (pre ++ amt ++ polarity)
    = Some ((pos + (length pre - length (figure_head pre)))%nat,
            figure_head pre ++ amt, group2)
    /\ group_text group2 = polarity.
Proof.
  intros Ha Hp.
  assert (forall whole pos, amount_string whole -> exists group2,
            search_balance_from pos (whole ++ polarity) = Some (pos, whole, group2)
            /\ group_text group2 = polarity) as Hhere.
  { intros whole pos Hw.
    destruct (match_balance_here_complete whole polarity [] Hw Hp eq_refl) as [g2 [Hm Hg]].
    rewrite app_nil_r in Hm. exists g2. split; [|exact Hg].
    destruct (whole ++ polarity) as [|c s] eqn:Es.
    - destruct Hw as [d [run [f1 [f2 [-> _]]]]]. discriminate.
    - cbn [search_balance_from]. rewrite Hm. reflexivity. }
  induction pre as [|x pre IH]; intro pos.
  - cbn [app length figure_head Nat.sub]. rewrite Nat.add_0_r. apply Hhere. exact Ha.
  - cbn [figure_head].
    destruct (is_digit x && forallb is_digit_or_comma pre)%bool eqn:E.
    + rewrite Nat.sub_diag, Nat.add_0_r, app_assoc. apply Hhere.
      pose proof (figure_head_amount (x :: pre) amt Ha) as Hw.
      cbn [figure_head] in Hw. rewrite E in Hw. exact Hw.
    + assert (match_balance_here ((x :: pre) ++ amt ++ polarity) = None) as Hn.
      { destruct (match_balance_here ((x :: pre) ++ amt ++ polarity)) eqn:Em;
          [|reflexivity].
        destruct (match_balance_here_start x pre amt polarity Ha Hp) as [Hx Hpre];
          [rewrite Em; discriminate|].
        rewrite Hx, Hpre in E. discriminate. }
      destruct (IH (S pos)) as [g2 [Hs Hg]].
      exists g2. split; [|exact Hg].
      cbn [app search_balance_from] in Hn |- *. rewrite Hn, Hs.
      pose proof (length_figure_head pre). cbn [length].
      do 3 f_equal. lia.
Qed.

Lemma is_amount_string (amt : str) : is_amount amt = true -> amount_string amt.
Proof.
  unfold is_amount. destruct amt as [|d s]; [discriminate|].
  destruct (span is_digit_or_comma s) as [run rest] eqn:E.
  destruct (span_spec _ _ _ _ E) as [-> [Hrun _]].
  destruct rest as [|dot [|f1 [|f2 [|x rest]]]]; try discriminate.
  intro H. apply andb_true_iff in H as [H H2]. apply andb_true_iff in H as [H H1].
  apply andb_true_iff in H as [Hd Hdot]. apply ascii_eqb_eq in Hdot. subst dot.
  exists d, run, f1, f2. repeat split; assumption.
Qed.

(** C2: a line with a real date whose trimmed remainder ends with a
    balance figure, followed or not by "Cr" or "Dr", gives a record whose
    Closing Balance is the figure of the line, whole and unchanged,
    followed by the polarity letters of the line, or by "Cr" when the line
    has none.  The figure is the given one together with the digits and
    commas in front of it back to the first digit of their run; what
    stands before it is the narration. *)
Theorem closing_balance_round_trip
    (line date_str pre amt polarity : str) (date_obj : date) (prev : option float) :
  match_date_prefix line = Some date_str ->
  strptime date_str = Some date_obj ->
  strip (skipn (length date_str) line) = pre ++ amt ++ polarity ->
  is_amount amt = true ->
  polarity = [] \/ polarity = lit "Cr" \/ polarity = lit "Dr" ->
  exists r,
    fst (parse_transaction_line line prev) = Some r
    /\ Closing_Balance r = (figure_head pre ++ amt) ++ polarity_or_credit polarity
    /\ Particulars r = strip (before_figure pre)
    /\ Date r = strftime date_obj.
Proof.
  intros Hd Hs Hr Ha Hp. apply is_amount_string in Ha.
  destruct (search_balance_from_leftmost pre amt polarity Ha Hp 0) as [g2 [Hm Hg]].
  destruct (search_balance_from_spec _ _ _ _ _ Hm) as [_ [Hg2 _]].
  unfold parse_transaction_line. rewrite Hd, Hs, Hr.
  unfold search_balance. rewrite Hm. cbn [Nat.add].
  assert (match g2 with Some t => t | None => lit "Cr" end = polarity_or_credit polarity)
    as ->.
  { destruct Hg2 as [-> | [-> | ->]]; simpl in Hg; subst polarity; reflexivity. }
  assert (firstn (length pre - length (figure_head pre)) (pre ++ amt ++ polarity)
          = before_figure pre) as ->.
  { unfold before_figure. rewrite firstn_app.
    replace (length pre - length (figure_head pre) - length pre)%nat with 0%nat by lia.
    rewrite firstn_O, app_nil_r. reflexivity. }
  destruct prev as [p|]; cbv zeta.
  - destruct (float_lt zero _); [|destruct (float_lt _ zero)];
      eexists; cbn [fst]; repeat split.
  - eexists. cbn [fst]. repeat split.
Qed.

Lemma closing_balance_round_trip_witness :
  exists r,
    fst (parse_transaction_line (lit "01-01-24 PAY,51,000.00Dr") None) = Some r
    /\ Closing_Balance r = lit "51,000.00Dr"
    /\ Particulars r = lit "PAY,"
    /\ Date r = lit "01-01-2024".
Proof.
  apply (closing_balance_round_trip (lit "01-01-24 PAY,51,000.00Dr") (lit "01-01-24")
           (lit "PAY,5") (lit "1,000.00") (lit "Dr")
           {| day := 1; month := 1; year := 2024 |} None).
  - reflexivity.
  - reflexivity.
  - reflexivity.
  - reflexivity.
  - right. right. reflexivity.
Defined.

(** A year below 1000 is written without padding. *)
Example date_below_1000 :
  option_map Date (fst (parse_transaction_line (lit "01-01-0999 PAY 1.00Cr") None))
  = Some (lit "01-01-999").
Proof. reflexivity. Qed.

(** A header line without polarity letters gets "Cr" added to its figure. *)
Lemma closing_balance_adds_polarity_counterexample :
  option_map Closing_Balance
    (fst (parse_transaction_line (lit "01-01-24 PAY 1,000.00") None))
  = Some (lit "1,000.00Cr")
  /\ lit "1,000.00Cr" <> lit "1,000.00".
Proof. split; [reflexivity | discriminate]. Qed.

(** ** Floats *)

(** The model on known values: 0.1 is 0x1.999999999999ap-4; 0.3 - 0.1 is
    the float below 0.2; [round(2.675, 2)] is 2.67 and [round(0.125, 2)] is
    0.12; a digit string beyond the range of floats gives infinity. *)
Example float_of_tenth :
  float_of (lit "0.10") = S754_finite false 7205759403792794 (-56).
Proof. reflexivity. Qed.

Example float_sub_tenths :
  float_sub (float_of (lit "0.30")) (float_of (lit "0.10"))
  = S754_finite false 7205759403792793 (-55)
  /\ float_of (lit "0.20") = S754_finite false 7205759403792794 (-55).
Proof. split; reflexivity. Qed.

Example round2_examples :
  round2 (float_of (lit "2.675")) = float_of (lit "2.67")
  /\ round2 (float_of (lit "0.125")) = float_of (lit "0.12")
  /\ round2 (float_sub (float_of (lit "0.30")) (float_of (lit "0.10")))
     = float_of (lit "0.20")
  /\ round2 (float_of (lit "0.004")) = zero.
Proof. repeat split; vm_compute; reflexivity. Qed.

Example float_of_overflow :
  float_of (lit "1" ++ repeat "0"%char 309 ++ lit ".00") = S754_infinity false.
Proof. vm_compute. reflexivity. Qed.

Lemma shr_1_nonneg (mrs : shr_record) :
  (0 <= shr_m mrs)%Z -> (0 <= shr_m (shr_1 mrs))%Z.
Proof.
  destruct mrs as [m r s]. simpl.
  destruct m as [|[p|p|]|p]; simpl; lia.
Qed.

Lemma iter_pos_preserves {A : Type} (P : A -> Prop) (f : A -> A) :
  (forall x, P x -> P (f x)) -> forall n x, P x -> P (SpecFloat.iter_pos f n x).
Proof.
  intro Hf. induction n as [n IH|n IH|]; intros x Hx; simpl.
  - apply IH, IH, Hf, Hx.
  - apply IH, IH, Hx.
  - apply Hf, Hx.
Qed.

Lemma shr_nonneg (mrs : shr_record) (e n : Z) :
  (0 <= shr_m mrs)%Z -> (0 <= shr_m (fst (shr mrs e n)))%Z.
Proof.
  intro H. unfold shr. destruct n as [|p|p]; simpl; try exact H.
  apply (iter_pos_preserves (fun x => (0 <= shr_m x)%Z) shr_1 shr_1_nonneg). exact H.
Qed.

Lemma shr_fexp_nonneg (m e : Z) (l : location) :
  (0 <= m)%Z -> (0 <= shr_m (fst (shr_fexp 53 1024 m e l)))%Z.
Proof.
  intro H. unfold shr_fexp. apply shr_nonneg.
  destruct l as [|[| |]]; exact H.
Qed.

Lemma round_nearest_even_nonneg (m : Z) (l : location) :
  (0 <= m)%Z -> (0 <= round_nearest_even m l)%Z.
Proof.
  intro H. unfold round_nearest_even.
  destruct l as [|[| |]]; try destruct (Z.even m); lia.
Qed.

Lemma binary_round_aux_signed (s : bool) (m e : Z) (l : location) :
  (0 <= m)%Z -> signed_as s (binary_round_aux 53 1024 s m e l).
Proof.
  intro H. unfold binary_round_aux.
  pose proof (shr_fexp_nonneg m e l H) as H1.
  destruct (shr_fexp 53 1024 m e l) as [mrs' e'].
  pose proof (shr_fexp_nonneg _ e' loc_Exact
                (round_nearest_even_nonneg _ (loc_of_shr_record mrs') H1)) as H2.
  destruct (shr_fexp 53 1024 _ e' loc_Exact) as [mrs'' e''].
  simpl in H2. destruct (shr_m mrs'') as [|p|p].
  - reflexivity.
  - destruct (e'' <=? 1024 - 53)%Z; reflexivity.
  - lia.
Qed.

Lemma binary_round_aux_opp (s : bool) (m e : Z) (l : location) :
  binary_round_aux 53 1024 (negb s) m e l = SFopp (binary_round_aux 53 1024 s m e l).
Proof.
  unfold binary_round_aux.
  destruct (shr_fexp 53 1024 m e l) as [mrs' e'].
  destruct (shr_fexp 53 1024 _ e' loc_Exact) as [mrs'' e''].
  destruct (shr_m mrs'') as [|p|p]; try reflexivity.
  destruct (e'' <=? 1024 - 53)%Z; reflexivity.
Qed.

Lemma div_core_nonneg (m1 m2 : positive) (e1 e2 : Z) :
  (0 <= fst (fst (SFdiv_core_binary 53 1024 (Zpos m1) e1 (Zpos m2) e2)))%Z.
Proof.
  unfold SFdiv_core_binary.
  set (s := (e1 - e2 - _)%Z).
  set (m' := match s with Zpos _ => Z.shiftl (Zpos m1) s | Z0 => Zpos m1 | Zneg _ => 0%Z end).
  assert (0 <= m')%Z as Hm.
  { subst m'. destruct s; try lia. apply Z.shiftl_nonneg. lia. }
  pose proof (Z.div_pos m' (Zpos m2) Hm ltac:(lia)) as Hq.
  unfold Z.div in Hq. destruct (Z.div_eucl m' (Zpos m2)) as [q r]. exact Hq.
Qed.

Lemma float_div_signed (s : bool) (p q : positive) :
  signed_as s (float_div (S754_finite s p 0) (S754_finite false q 0)).
Proof.
  unfold float_div, SFdiv.
  pose proof (div_core_nonneg p q 0 0) as H.
  destruct (SFdiv_core_binary 53 1024 (Zpos p) 0 (Zpos q) 0) as [[mz ez] lz].
  simpl in H. rewrite xorb_false_r. apply binary_round_aux_signed. exact H.
Qed.

Lemma float_div_opp (s : bool) (p q : positive) :
  float_div (S754_finite (negb s) p 0) (S754_finite false q 0)
  = SFopp (float_div (S754_finite s p 0) (S754_finite false q 0)).
Proof.
  unfold float_div, SFdiv.
  destruct (SFdiv_core_binary 53 1024 (Zpos p) 0 (Zpos q) 0) as [[mz ez] lz].
  rewrite !xorb_false_r. apply binary_round_aux_opp.
Qed.

(** Rounding to two decimals keeps the sign and never gives NaN. *)
Lemma round2_finite_signed (s : bool) (m : positive) (e : Z) :
  signed_as s (round2 (S754_finite s m e)).
Proof.
  unfold round2.
  destruct (match e with
            | Zneg p => round_half_even_div (Zpos m * 100) (2 ^ Zpos p)
            | _ => (Zpos m * 100 * 2 ^ e)%Z
            end) as [|p|p]; try reflexivity.
  apply float_div_signed.
Qed.

Lemma round2_opp (x : float) : round2 (float_neg x) = float_neg (round2 x).
Proof.
  destruct x as [s|s| |s m e]; try reflexivity.
  unfold float_neg, SFopp at 1, round2.
  destruct (match e with
            | Zneg p => round_half_even_div (Zpos m * 100) (2 ^ Zpos p)
            | _ => (Zpos m * 100 * 2 ^ e)%Z
            end) as [|p|p]; try reflexivity.
  apply float_div_opp.
Qed.

Lemma round2_not_nan (x : float) : is_nan x = false -> is_nan (round2 x) = false.
Proof.
  destruct x as [s|s| |s m e]; try (intros; assumption).
  intros _. pose proof (round2_finite_signed s m e) as H.
  destruct (round2 (S754_finite s m e)); try reflexivity. contradiction.
Qed.

Lemma float_eq_refl (x : float) : is_nan x = false -> float_eq x x = true.
Proof.
  destruct x as [s|s| |s m e]; try discriminate; intros _; unfold float_eq, SFeqb, SFcompare.
  - reflexivity.
  - destruct s; reflexivity.
  - rewrite Z.compare_refl, Pos.compare_cont_refl. destruct s; reflexivity.
Qed.

(** A float above zero is a positive number or plus infinity; one below
    zero a negative number or minus infinity. *)
Lemma float_lt_zero_l (x : float) :
  float_lt zero x = true -> signed_as false x /\ is_zero x = false.
Proof. destruct x as [s|[]| |[] m e]; simpl; try discriminate; auto. Qed.

Lemma float_lt_zero_r (x : float) :
  float_lt x zero = true -> signed_as true x /\ is_zero x = false.
Proof. destruct x as [s|[]| |[] m e]; simpl; try discriminate; auto. Qed.

Lemma float_not_lt_zero (x : float) :
  float_lt zero x = false -> float_lt x zero = false -> is_zero x = true \/ is_nan x = true.
Proof. destruct x as [s|[]| |[] m e]; simpl; try discriminate; auto. Qed.

Lemma round2_signed (s : bool) (x : float) :
  signed_as s x -> signed_as s (round2 x).
Proof.
  destruct x as [s'|s'| |s' m e]; simpl; try (intro H; exact H).
  intros <-. apply round2_finite_signed.
Qed.

(** ** Amounts of a parsed record *)

Lemma signed_balance_closing (r : Transaction) (amt t : str) :
  Closing_Balance r = amt ++ t ->
  t = lit "Cr" \/ t = lit "Dr" ->
  signed_balance r
  = if str_eqb t (lit "Cr") then float_of (remove_commas amt)
    else float_neg (float_of (remove_commas amt)).
Proof.
  intros Hc Ht. unfold signed_balance. rewrite Hc.
  assert (length (amt ++ t) - 2 = length amt)%nat as ->.
  { rewrite length_app. destruct Ht as [-> | ->]; simpl; lia. }
  rewrite firstn_app, Nat.sub_diag, firstn_all, firstn_O, app_nil_r.
  rewrite skipn_app, Nat.sub_diag, skipn_all, skipn_O.
  destruct Ht as [-> | ->]; reflexivity.
Qed.

Lemma parse_some_amounts
    (line : str) (prev : option float) (r : Transaction) (b : option float) :
  parse_transaction_line line prev = (Some r, b) ->
  b = Some (signed_balance r) /\ amounts_follow prev r.
Proof.
  intro H.
  destruct (parse_some_inv _ _ _ _ H) as [ds [d [start [amt [g2 [E1 [E2 [E3 Hc]]]]]]]].
  destruct (search_balance_from_spec _ _ _ _ _ E3) as [_ [Hg _]].
  set (t := match g2 with Some t => t | None => lit "Cr" end) in *.
  assert (t = lit "Cr" \/ t = lit "Dr") as Ht.
  { subst t. destruct Hg as [-> | [-> | ->]]; auto. }
  pose proof (signed_balance_closing r amt t Hc Ht) as Hsb.
  unfold parse_transaction_line in H. rewrite E1, E2, E3 in H. fold t in H.
  rewrite <- Hsb in H.
  destruct prev as [p|]; cbv zeta in H |- *.
  - unfold amounts_follow. cbv zeta.
    destruct (float_lt zero (float_sub (signed_balance r) p)) eqn:L1.
    + injection H as Hr Hb. split; [symmetry; exact Hb|]. left.
      rewrite <- (f_equal Deposit Hr), <- (f_equal Withdrawals Hr).
      repeat split.
    + destruct (float_lt (float_sub (signed_balance r) p) zero) eqn:L2.
      * injection H as Hr Hb. split; [symmetry; exact Hb|]. right. left.
        rewrite <- (f_equal Deposit Hr), <- (f_equal Withdrawals Hr).
        repeat split.
      * injection H as Hr Hb. split; [symmetry; exact Hb|]. right. right.
        rewrite <- (f_equal Deposit Hr), <- (f_equal Withdrawals Hr).
        repeat split.
  - injection H as Hr Hb. split; [symmetry; exact Hb|].
    unfold amounts_follow.
    rewrite <- (f_equal Deposit Hr), <- (f_equal Withdrawals Hr). split; reflexivity.
Qed.

(** ** The balance chain of the walker *)

Lemma last_balance_snoc (prev : option float) (es : list Transaction) (e : Transaction) :
  last_balance prev (es ++ [e]) = Some (signed_balance e).
Proof. unfold last_balance. rewrite fold_left_app. reflexivity. Qed.

Lemma chain_snoc (es : list Transaction) (e : Transaction) :
  forall prev,
    chain prev (es ++ [e]) <-> chain prev es /\ amounts_follow (last_balance prev es) e.
Proof.
  induction es as [|x es IH]; intro prev; simpl.
  - tauto.
  - rewrite IH. unfold last_balance. simpl. tauto.
Qed.

Lemma chain_append_to_last (es : list Transaction) (text : str) (prev : option float) :
  chain prev es -> chain prev (append_to_last es text).
Proof.
  destruct es as [|e es _] using rev_ind; [trivial|].
  rewrite append_to_last_snoc, !chain_snoc. tauto.
Qed.

Lemma last_balance_append_to_last (es : list Transaction) (text : str) (prev : option float) :
  last_balance prev (append_to_last es text) = last_balance prev es.
Proof.
  destruct es as [|e es _] using rev_ind; [reflexivity|].
  rewrite append_to_last_snoc, !last_balance_snoc. reflexivity.
Qed.

Lemma flush_chain (es : list Transaction) (buffer : str) (prev : option float) :
  chain prev es ->
  chain prev (fst (flush es buffer))
  /\ last_balance prev (fst (flush es buffer)) = last_balance prev es.
Proof.
  intro H. unfold flush. destruct (nonempty buffer && nonempty es)%bool; simpl.
  - split; [apply chain_append_to_last; exact H | apply last_balance_append_to_last].
  - split; [exact H | reflexivity].
Qed.

Lemma step_invariant (st : walker) (line : str) :
  walker_invariant st -> walker_invariant (step st line).
Proof.
  intros [Hc Hp]. unfold step.
  destruct (is_noise (strip line)); [split; assumption|].
  destruct (match_date_prefix (strip line)) as [ds|]; [|split; assumption].
  destruct (flush_chain (entries st) (narration_buffer st) None Hc) as [Hc' Hl'].
  destruct (flush (entries st) (narration_buffer st)) as [es buffer]. simpl in Hc', Hl'.
  destruct (parse_transaction_line (strip line) (prev_balance st)) as [[r|] b] eqn:E.
  - destruct (parse_some_amounts _ _ _ _ E) as [Hb Hr].
    split; cbn [entries prev_balance].
    + apply chain_snoc. split; [exact Hc'|]. rewrite Hl', <- Hp. exact Hr.
    + rewrite last_balance_snoc. exact Hb.
  - pose proof (parse_none_keeps_balance (strip line) (prev_balance st)) as Hn.
    rewrite E in Hn. simpl in Hn. rewrite (Hn eq_refl).
    split; cbn [entries prev_balance]; [exact Hc' | rewrite Hl'; exact Hp].
Qed.

Lemma walk_lines_invariant (lines : list str) :
  forall st, walker_invariant st -> walker_invariant (walk_lines st lines).
Proof.
  unfold walk_lines. induction lines as [|l lines IH]; intros st H; simpl.
  - exact H.
  - apply IH. apply step_invariant. exact H.
Qed.

Lemma walk_pages_invariant (pages : list str) :
  forall st, walker_invariant st -> walker_invariant (walk_pages st pages).
Proof.
  unfold walk_pages. induction pages as [|p pages IH]; intros st H; simpl.
  - exact H.
  - apply IH. apply walk_lines_invariant. exact H.
Qed.

(** The records of an extraction form a chain that starts without a
    previous balance. *)
Lemma extract_transactions_chain (pdf : list str) :
  chain None (extract_transactions pdf).
Proof.
  unfold extract_transactions, finish.
  assert (walker_invariant initial) as H0 by (split; [exact I | reflexivity]).
  destruct (walk_pages_invariant pdf initial H0) as [Hc _].
  apply flush_chain. exact Hc.
Qed.

Lemma chain_first (prev : option float) (es : list Transaction) (r : Transaction) :
  chain prev es -> nth_error es 0 = Some r -> amounts_follow prev r.
Proof.
  destruct es as [|e es]; [discriminate|].
  intros [H _] E. injection E as <-. exact H.
Qed.

Lemma chain_next (es : list Transaction) :
  forall prev i r0 r1,
    chain prev es -> nth_error es i = Some r0 -> nth_error es (S i) = Some r1 ->
    amounts_follow (Some (signed_balance r0)) r1.
Proof.
  induction es as [|e es IH]; intros prev i r0 r1 Hc H0 H1.
  - destruct i; discriminate.
  - destruct Hc as [_ Hc]. destruct i as [|i].
    + injection H0 as <-. eapply chain_first; eassumption.
    + eapply IH; eassumption.
Qed.


(** ** The balance difference *)

Lemma amounts_difference (p : float) (r : Transaction) :
  amounts_follow (Some p) r ->
  is_nan (float_sub (signed_balance r) p) = false ->
  float_eq (float_sub (Deposit r) (Withdrawals r))
           (round2 (float_sub (signed_balance r) p)) = true.
Proof.
  unfold amounts_follow. cbv zeta.
  set (diff := float_sub (signed_balance r) p).
  intros [[L1 [-> ->]] | [[L1 [L2 [-> ->]]] | [L1 [L2 [-> ->]]]]] Hn.
  - apply float_lt_zero_l in L1 as [Hs _].
    pose proof (round2_signed false diff Hs) as Hr.
    destruct (round2 diff) as [s|s| |s m e]; simpl in Hr; try contradiction; subst s.
    + reflexivity.
    + reflexivity.
    + apply (float_eq_refl (S754_finite false m e)). reflexivity.
  - apply float_lt_zero_r in L2 as [Hs _].
    pose proof (round2_signed true diff Hs) as Hr.
    rewrite round2_opp.
    destruct (round2 diff) as [s|s| |s m e]; simpl in Hr; try contradiction; subst s.
    + reflexivity.
    + reflexivity.
    + apply (float_eq_refl (S754_finite true m e)). reflexivity.
  - destruct (float_not_lt_zero diff L1 L2) as [Hz|Hz]; [|congruence].
    destruct diff as [s|s| |s m e]; try discriminate. reflexivity.
Qed.

(** C1: in the records of an extraction, the deposit less the withdrawal
    of a record equals the difference of its signed closing balance to
    that of the record before it once that difference is rounded to two
    decimals, whenever the difference is a number. *)
Theorem balance_delta_invariant (pdf : list str) (i : nat) (r0 r1 : Transaction) :
  nth_error (extract_transactions pdf) i = Some r0 ->
  nth_error (extract_transactions pdf) (S i) = Some r1 ->
  is_nan (float_sub (signed_balance r1) (signed_balance r0)) = false ->
  float_eq (float_sub (Deposit r1) (Withdrawals r1))
           (round2 (float_sub (signed_balance r1) (signed_balance r0))) = true.
Proof.
  intros H0 H1 Hn. apply amounts_difference; [|exact Hn].
  exact (chain_next _ _ _ _ _ (extract_transactions_chain pdf) H0 H1).
Qed.

Lemma balance_delta_invariant_witness :
  exists r0 r1,
    nth_error (extract_transactions example_pdf_cents) 0 = Some r0
    /\ nth_error (extract_transactions example_pdf_cents) 1 = Some r1
    /\ float_eq (float_sub (Deposit r1) (Withdrawals r1))
                (round2 (float_sub (signed_balance r1) (signed_balance r0))) = true.
Proof.
  eexists. eexists. split; [reflexivity|]. split; [reflexivity|].
  apply (balance_delta_invariant example_pdf_cents 0); reflexivity.
Defined.

(** Balances 0.10 and 0.30: the deposit is 0.2, the float nearest to two
    tenths, and the difference of the balances is the float just below
    it, 0.19999999999999998. *)
Lemma balance_delta_counterexample :
  exists r0 r1,
    nth_error (extract_transactions example_pdf_cents) 0 = Some r0
    /\ nth_error (extract_transactions example_pdf_cents) 1 = Some r1
    /\ float_sub (Deposit r1) (Withdrawals r1)
       = S754_finite false 7205759403792794 (-55)
    /\ float_sub (signed_balance r1) (signed_balance r0)
       = S754_finite false 7205759403792793 (-55)
    /\ float_eq (float_sub (Deposit r1) (Withdrawals r1))
                (float_sub (signed_balance r1) (signed_balance r0)) = false.
Proof.
  eexists. eexists. split; [reflexivity|]. split; [reflexivity|].
  split; [reflexivity|]. split; reflexivity.
Qed.

(** Balances 9,007,199,254,740,992.00 and 9,007,199,254,740,993.00 are one
    unit apart and have the same float: the second record has no deposit. *)
Lemma balance_delta_large_balances :
  exists r0 r1,
    nth_error (extract_transactions example_pdf_large) 0 = Some r0
    /\ nth_error (extract_transactions example_pdf_large) 1 = Some r1
    /\ (exact_hundredths r1 - exact_hundredths r0 = 100)%Z
    /\ signed_balance r1 = signed_balance r0
    /\ Deposit r1 = zero /\ Withdrawals r1 = zero.
Proof.
  eexists. eexists. split; [vm_compute; reflexivity|]. split; [vm_compute; reflexivity|].
  split; [vm_compute; reflexivity|]. split; [vm_compute; reflexivity|].
  split; reflexivity.
Qed.

(** ** Deposits and withdrawals *)

Lemma nth_error_pred {A : Type} (l : list A) (i : nat) (x : A) :
  nth_error l (S i) = Some x -> exists y, nth_error l i = Some y.
Proof.
  intro H. destruct (nth_error l i) as [y|] eqn:E; [exists y; reflexivity|].
  apply nth_error_None in E.
  assert (nth_error l (S i) = None) as N by (apply nth_error_None; lia).
  congruence.
Qed.

Lemma signed_false_nonnegative (x : float) : signed_as false x -> nonnegative x = true.
Proof. destruct x as [s|s| |s m e]; simpl; try contradiction; intros ->; reflexivity. Qed.

Lemma amounts_follow_signs (prev : option float) (r : Transaction) :
  amounts_follow prev r ->
  nonnegative (Deposit r) = true /\ nonnegative (Withdrawals r) = true
  /\ (Deposit r = zero \/ Withdrawals r = zero).
Proof.
  unfold amounts_follow. destruct prev as [p|]; cbv zeta.
  - set (diff := float_sub (signed_balance r) p).
    intros [[L1 [-> ->]] | [[L1 [L2 [-> ->]]] | [L1 [L2 [-> ->]]]]].
    + apply float_lt_zero_l in L1 as [Hs _].
      split; [|split; [reflexivity | right; reflexivity]].
      apply signed_false_nonnegative, round2_signed, Hs.
    + apply float_lt_zero_r in L2 as [Hs _].
      split; [reflexivity|]. split; [|left; reflexivity].
      apply signed_false_nonnegative. rewrite round2_opp.
      pose proof (round2_signed true diff Hs) as Hr.
      destruct (round2 diff) as [s|s| |s m e]; simpl in Hr |- *; try contradiction;
        subst s; reflexivity.
    + split; [reflexivity|]. split; [reflexivity | left; reflexivity].
  - intros [-> ->]. split; [reflexivity|]. split; [reflexivity | left; reflexivity].
Qed.

Lemma is_zero_opp (x : float) : is_zero (float_neg x) = is_zero x.
Proof. destruct x; reflexivity. Qed.

Lemma amounts_follow_zero (p : float) (r : Transaction) :
  amounts_follow (Some p) r ->
  (is_zero (Deposit r) && is_zero (Withdrawals r))%bool = true
  <-> (is_zero (round2 (float_sub (signed_balance r) p))
       || is_nan (round2 (float_sub (signed_balance r) p)))%bool = true.
Proof.
  unfold amounts_follow. cbv zeta.
  set (diff := float_sub (signed_balance r) p).
  intros [[L1 [-> ->]] | [[L1 [L2 [-> ->]]] | [L1 [L2 [-> ->]]]]].
  - apply float_lt_zero_l in L1 as [Hs _].
    pose proof (round2_signed false diff Hs) as Hr.
    destruct (round2 diff) as [s|s| |s m e]; simpl in Hr |- *; try contradiction; tauto.
  - apply float_lt_zero_r in L2 as [Hs _].
    pose proof (round2_signed true diff Hs) as Hr.
    rewrite round2_opp, is_zero_opp.
    destruct (round2 diff) as [s|s| |s m e]; simpl in Hr |- *; try contradiction; tauto.
  - destruct (float_not_lt_zero diff L1 L2) as [Hz|Hz];
      destruct diff as [s|s| |s m e]; try discriminate; simpl; tauto.
Qed.

Lemma float_sub_same (s : bool) (m : positive) (e : Z) :
  float_sub (S754_finite s m e) (S754_finite s m e) = zero.
Proof.
  unfold float_sub, SFsub, shl_align. rewrite Z.min_id, !Z.sub_diag.
  reflexivity.
Qed.

(** A record whose balance is the finite balance of the record before it
    has neither a deposit nor a withdrawal. *)
Lemma unchanged_balance_amounts (p : float) (r : Transaction) :
  amounts_follow (Some p) r ->
  signed_balance r = p -> is_nan (float_sub p p) = false ->
  Deposit r = zero /\ Withdrawals r = zero.
Proof.
  unfold amounts_follow. cbv zeta. intros H E Hn. rewrite E in H.
  assert (is_zero (float_sub p p) = true) as Hz.
  { destruct p as [[]|[]| |s m e]; try discriminate; try reflexivity.
    rewrite float_sub_same. reflexivity. }
  destruct (float_sub p p) as [s|s| |s m e]; try discriminate.
  destruct H as [[L _] | [[_ [L _]] | [_ [_ H]]]]; [discriminate | discriminate | exact H].
Qed.

(** C4: in the records of an extraction, deposit and withdrawal are never
    negative and at most one of them is not zero; both are zero exactly
    in the first record and in a record whose balance difference to the
    record before it, rounded to two decimals, is zero or not a number. *)
Theorem deposit_withdrawal_exclusive (pdf : list str) (i : nat) (r : Transaction) :
  nth_error (extract_transactions pdf) i = Some r ->
  nonnegative (Deposit r) = true /\ nonnegative (Withdrawals r) = true
  /\ (Deposit r = zero \/ Withdrawals r = zero)
  /\ ((is_zero (Deposit r) && is_zero (Withdrawals r))%bool = true
      <-> match i with
          | O => True
          | S j =>
              exists r0,
                nth_error (extract_transactions pdf) j = Some r0
                /\ (is_zero (round2 (float_sub (signed_balance r) (signed_balance r0)))
                    || is_nan (round2 (float_sub (signed_balance r) (signed_balance r0))))%bool
                   = true
          end).
Proof.
  intro H. pose proof (extract_transactions_chain pdf) as Hc.
  destruct i as [|j].
  - pose proof (chain_first _ _ _ Hc H) as Hf.
    destruct (amounts_follow_signs _ _ Hf) as [Hd [Hw Hz]].
    repeat (split; [assumption|]). destruct Hf as [-> ->]. simpl. tauto.
  - destruct (nth_error_pred _ _ _ H) as [r0 H0].
    pose proof (chain_next _ _ _ _ _ Hc H0 H) as Hf.
    destruct (amounts_follow_signs _ _ Hf) as [Hd [Hw Hz]].
    repeat (split; [assumption|]).
    rewrite (amounts_follow_zero _ _ Hf). split.
    + intro E. exists r0. split; [exact H0 | exact E].
    + intros [r0' [H0' E]]. rewrite H0 in H0'. injection H0' as <-. exact E.
Qed.

Lemma deposit_withdrawal_exclusive_witness :
  exists r,
    nth_error (extract_transactions example_pdf) 1 = Some r
    /\ nonnegative (Deposit r) = true /\ nonnegative (Withdrawals r) = true
    /\ (Deposit r = zero \/ Withdrawals r = zero).
Proof.
  eexists. split; [reflexivity|].
  pose proof (deposit_withdrawal_exclusive example_pdf 1 _ eq_refl) as [Hd [Hw [Hz _]]].
  split; [exact Hd|]. split; [exact Hw | exact Hz].
Defined.

(** A second record whose balance is that of the first has neither a
    deposit nor a withdrawal, though a previous balance was there. *)
Lemma both_zero_after_first_counterexample :
  exists r,
    nth_error (extract_transactions example_pdf_level) 1 = Some r
    /\ Deposit r = zero /\ Withdrawals r = zero.
Proof. eexists. split; [reflexivity|]. split; reflexivity. Qed.

(** * Further properties *)

(** ** The matchers *)

(** Closes a goal whose premise equates two different literals. *)
Ltac literal_clash := let H := fresh in intro H; vm_compute in H; discriminate H.

Lemma lower_app (s t : str) : lower (s ++ t) = lower s ++ lower t.
Proof. apply map_app. Qed.

Lemma contains_extend (k s a b : str) :
  contains k s = true -> contains k (a ++ s ++ b) = true.
Proof.
  rewrite !contains_iff. intros [pre [post ->]].
  exists (a ++ pre), (post ++ b). rewrite <- !app_assoc. reflexivity.
Qed.

Lemma contains_lower_extend (k n a b : str) :
  contains k (lower n) = true -> contains k (lower (a ++ n ++ b)) = true.
Proof. intro H. rewrite !lower_app. apply contains_extend. exact H. Qed.

(** X1: text added before or after a narration never takes a ledger away
    from [default_mapping]: "Cash" stays "Cash", and "Drawings" stays
    "Drawings" or becomes "Cash". *)
Theorem default_mapping_extension (narration before after : str) :
  (default_mapping narration = lit "Cash" ->
   default_mapping (before ++ narration ++ after) = lit "Cash")
  /\ (default_mapping narration = lit "Drawings" ->
      default_mapping (before ++ narration ++ after) = lit "Cash"
      \/ default_mapping (before ++ narration ++ after) = lit "Drawings").
Proof.
  unfold default_mapping.
  destruct (contains (lit "cash") (lower narration)
            || contains (lit "atm") (lower narration))%bool eqn:E1.
  - assert ((contains (lit "cash") (lower (before ++ narration ++ after))
             || contains (lit "atm") (lower (before ++ narration ++ after)))%bool = true)
      as ->.
    { apply orb_true_iff in E1 as [E|E]; apply orb_true_iff; [left|right];
        apply contains_lower_extend; exact E. }
    split; [reflexivity | literal_clash].
  - destruct (existsb (fun keyword => contains keyword (lower narration)) drawings_keywords)
      eqn:E2.
    + split; [literal_clash|]. intros _.
      destruct (contains (lit "cash") (lower (before ++ narration ++ after))
                || contains (lit "atm") (lower (before ++ narration ++ after)))%bool;
        [left; reflexivity|].
      assert (existsb (fun keyword => contains keyword (lower (before ++ narration ++ after)))
                drawings_keywords = true) as ->; [|right; reflexivity].
      apply existsb_exists in E2 as [k [Hin Hk]]. apply existsb_exists.
      exists k. split; [exact Hin | apply contains_lower_extend; exact Hk].
    + destruct (existsb (fun keyword => contains keyword (lower narration)) cash_keywords)
        eqn:E3.
      * apply cash_tier_shadowed in E3. congruence.
      * split; literal_clash.
Qed.

Lemma default_mapping_extension_witness :
  default_mapping (lit "REF " ++ lit "Swiggy order" ++ lit " ATM") = lit "Cash"
  \/ default_mapping (lit "REF " ++ lit "Swiggy order" ++ lit " ATM") = lit "Drawings".
Proof.
  apply (proj2 (default_mapping_extension (lit "Swiggy order") (lit "REF ") (lit " ATM"))).
  reflexivity.
Defined.

(** X2: [apply_custom_mapping] gives the ledger of the first keyword, in
    the order of the map, that occurs in the narration with case ignored,
    and the empty string when none occurs. *)
Theorem custom_mapping_first_match (narration : str) (custom_map : list (str * str)) :
  (Forall (keyword_misses narration) custom_map ->
   apply_custom_mapping narration custom_map = lit "")
  /\ (forall pre keyword ledger post,
        custom_map = pre ++ (keyword, ledger) :: post ->
        Forall (keyword_misses narration) pre ->
        contains (lower keyword) (lower narration) = true ->
        apply_custom_mapping narration custom_map = ledger).
Proof.
  split.
  - induction 1 as [|[k l] cm Hk _ IH]; [reflexivity|].
    unfold keyword_misses in Hk. simpl in Hk |- *. rewrite Hk. exact IH.
  - intros pre keyword ledger post -> Hpre Hk.
    induction Hpre as [|[k l] pre Hm _ IH]; simpl.
    + rewrite Hk. reflexivity.
    + unfold keyword_misses in Hm. simpl in Hm. rewrite Hm. exact IH.
Qed.

Lemma custom_mapping_first_match_witness :
  apply_custom_mapping (lit "NEFT Rent May")
    [(lit "salary", lit "Income"); (lit "RENT", lit "Rent Paid"); (lit "neft", lit "Bank")]
  = lit "Rent Paid".
Proof.
  apply (proj2 (custom_mapping_first_match (lit "NEFT Rent May")
                  [(lit "salary", lit "Income"); (lit "RENT", lit "Rent Paid");
                   (lit "neft", lit "Bank")])
           [(lit "salary", lit "Income")] (lit "RENT") (lit "Rent Paid")
           [(lit "neft", lit "Bank")]).
  - reflexivity.
  - repeat constructor.
  - reflexivity.
Defined.

Lemma lower_clean (s : str) :
  Forall (fun c => is_clean_char c = true) s -> lower s = s.
Proof.
  induction 1 as [|c s Hc _ IH]; [reflexivity|].
  unfold lower in *. simpl. rewrite (proj1 (clean_char_fixed c Hc)), IH. reflexivity.
Qed.

Lemma clean_text_again (s : str) : clean_text (clean_text s) = clean_text s.
Proof.
  unfold clean_text at 1. rewrite (clean_chars_fixed _ (clean_text_chars s)).
  unfold clean_text. apply strip_idem.
Qed.

Section TrendProperties.

Variable partial_ratio : str -> str -> Q.

Lemma trend_fold_member (narration_clean : str) (trend_map : list (str * str)) :
  forall best : str * Q,
    fold_left (trend_step partial_ratio narration_clean) trend_map best = best
    \/ In (fst (fold_left (trend_step partial_ratio narration_clean) trend_map best))
          (map snd trend_map).
Proof.
  induction trend_map as [|[k l] tm IH]; intro best; cbn [fold_left map].
  - left. reflexivity.
  - destruct (IH (trend_step partial_ratio narration_clean best (k, l))) as [E|Hin].
    + rewrite E. unfold trend_step.
      destruct (negb (Qle_bool _ (snd best))); [right; left; reflexivity | left; reflexivity].
    + right. right. exact Hin.
Qed.

(** X3: [apply_trend_mapping] returns the empty string or a ledger of the
    trend map, and the empty string on an empty map. *)
Theorem trend_mapping_result_in_map (narration : str) (trend_map : list (str * str)) :
  (apply_trend_mapping partial_ratio narration trend_map = lit ""
   \/ In (apply_trend_mapping partial_ratio narration trend_map) (map snd trend_map))
  /\ apply_trend_mapping partial_ratio narration [] = lit "".
Proof.
  split; [|reflexivity].
  unfold apply_trend_mapping.
  destruct (trend_fold_member (clean_text narration) trend_map (lit "", 0)) as [E|Hin].
  - rewrite E. left. destruct (negb (Qle_bool 0 70)); reflexivity.
  - destruct (fold_left _ trend_map (lit "", 0)) as [m s]. simpl in Hin.
    destruct (negb (Qle_bool s 70)); [right; exact Hin | left; reflexivity].
Qed.

Lemma trend_fold_cleaned (narration : str) (trend_map : list (str * str)) :
  forall best,
    fold_left (trend_step partial_ratio (clean_text (clean_text narration)))
              (map (fun item => (clean_text (fst item), snd item)) trend_map) best
    = fold_left (trend_step partial_ratio (clean_text narration)) trend_map best.
Proof.
  induction trend_map as [|[k l] tm IH]; intro best; [reflexivity|].
  cbn [map fold_left fst snd].
  rewrite <- IH. f_equal.
  unfold trend_step. rewrite !clean_text_again. reflexivity.
Qed.

End TrendProperties.

(** ** The line parser *)

(** X5: the running balance decides nothing but Deposit and Withdrawals:
    whether a line parses, its Date, Particulars and Closing Balance and the
    balance handed on are the same for every previous balance, and a line
    that does not parse hands the previous balance back. *)
Theorem parse_depends_on_balance_for_amounts_only (line : str) (prev1 prev2 : option float) :
  match parse_transaction_line line prev1, parse_transaction_line line prev2 with
  | (Some r1, b1), (Some r2, b2) =>
      Date r1 = Date r2 /\ Particulars r1 = Particulars r2
      /\ Closing_Balance r1 = Closing_Balance r2 /\ b1 = b2 /\ b1 <> None
  | (None, b1), (None, b2) => b1 = prev1 /\ b2 = prev2
  | _, _ => False
  end.
Proof.
  unfold parse_transaction_line.
  destruct (match_date_prefix line) as [ds|]; [|split; reflexivity].
  destruct (strptime ds) as [d|]; [|split; reflexivity].
  destruct (search_balance (strip (skipn (length ds) line))) as [[[start amt] g2]|];
    [|split; reflexivity].
  cbv zeta.
  destruct prev1 as [p1|]; destruct prev2 as [p2|];
    repeat match goal with
           | |- context [if float_lt ?a ?b then _ else _] => destruct (float_lt a b)
           end;
    cbn [Date Particulars Closing_Balance]; repeat split; discriminate.
Qed.

Lemma match_date_prefix_shape (line date_str : str) :
  match_date_prefix line = Some date_str ->
  exists d1 d2 m1 m2 y1 y2 more,
    date_str = [d1; d2; "-"%char; m1; m2; "-"%char; y1; y2] ++ more
    /\ Forall (fun c => is_digit c = true) [d1; d2; m1; m2; y1; y2]
    /\ Forall (fun c => is_digit c = true) more
    /\ (length more <= 2)%nat.
Proof.
  unfold match_date_prefix.
  destruct line as [|d1 [|d2 [|h1 [|m1 [|m2 [|h2 [|y1 [|y2 more]]]]]]]]; try discriminate.
  destruct (is_digit d1 && is_digit d2 && ascii_eqb h1 "-" && is_digit m1 && is_digit m2
            && ascii_eqb h2 "-" && is_digit y1 && is_digit y2)%bool eqn:E; [|discriminate].
  do 7 (apply andb_true_iff in E as [E ?]).
  repeat match goal with H : ascii_eqb _ _ = true |- _ => apply ascii_eqb_eq in H; subst end.
  destruct (span is_digit (firstn 2 more)) as [run rest] eqn:Es.
  destruct (span_spec _ _ _ _ Es) as [Hs [Hrun _]].
  cbn [fst]. intro Heq. injection Heq as <-.
  exists d1, d2, m1, m2, y1, y2, run. split; [reflexivity|].
  split; [repeat constructor; assumption|].
  split; [apply Forall_forall; apply forallb_forall; exact Hrun|].
  apply (f_equal (@length ascii)) in Hs. rewrite length_app, length_firstn in Hs. lia.
Qed.

Lemma digit_char_val (c : ascii) :
  is_digit c = true -> digit_char (digit_val c) = c /\ (0 <= digit_val c < 10)%Z.
Proof.
  destruct c as [[] [] [] [] [] [] [] []]; intro H; vm_compute in H; try discriminate H;
    vm_compute; (split; [reflexivity | split; [discriminate | reflexivity]]).
Qed.

Lemma digits_val_snoc (s : str) (c : ascii) :
  digits_val (s ++ [c]) = (10 * digits_val s + digit_val c)%Z.
Proof. unfold digits_val. rewrite fold_left_app. reflexivity. Qed.

Lemma zero_padded_snoc (w : nat) (n b : Z) :
  (0 <= b < 10)%Z ->
  zero_padded (S w) (10 * n + b) = zero_padded w n ++ [digit_char b].
Proof.
  intro Hb. cbn [zero_padded].
  assert ((10 * n + b) / 10 = n)%Z as ->.
  { symmetry. apply (Z.div_unique _ _ n b); lia. }
  assert ((10 * n + b) mod 10 = b)%Z as ->.
  { symmetry. apply (Z.mod_unique _ _ n b); lia. }
  reflexivity.
Qed.

(** Writing the number of a digit string with as many digits gives the
    string back. *)
Lemma zero_padded_digits (s : str) :
  Forall (fun c => is_digit c = true) s ->
  zero_padded (length s) (digits_val s) = s.
Proof.
  induction s as [|c s IH] using rev_ind; intro H; [reflexivity|].
  apply Forall_app in H as [Hs Hc]. inversion Hc as [|? ? Hd _]; subst.
  destruct (digit_char_val c Hd) as [Hch Hr].
  rewrite length_app, Nat.add_1_r, digits_val_snoc, zero_padded_snoc by exact Hr.
  rewrite (IH Hs), Hch. reflexivity.
Qed.

Lemma parse_some_fields (line : str) (prev : option float) (r : Transaction) (b : option float) :
  parse_transaction_line line prev = (Some r, b) ->
  exists date_str date_obj start amt group2,
    match_date_prefix line = Some date_str
    /\ strptime date_str = Some date_obj
    /\ search_balance (strip (skipn (length date_str) line)) = Some (start, amt, group2)
    /\ Date r = strftime date_obj
    /\ Particulars r = strip (firstn start (strip (skipn (length date_str) line)))
    /\ Closing_Balance r
       = amt ++ match group2 with Some t => t | None => lit "Cr" end.
Proof.
  unfold parse_transaction_line.
  destruct (match_date_prefix line) as [ds|] eqn:E1; [|discriminate].
  destruct (strptime ds) as [d|] eqn:E2; [|discriminate].
  destruct (search_balance (strip (skipn (length ds) line))) as [[[start amt] g2]|] eqn:E3;
    [|discriminate].
  intro H. exists ds, d, start, amt, g2.
  split; [reflexivity|]. split; [exact E2|]. split; [exact E3|].
  destruct prev as [p|]; cbv zeta in H.
  - destruct (float_lt zero _); [|destruct (float_lt _ zero)];
      injection H as <- _; repeat split.
  - injection H as <- _. repeat split.
Qed.

Lemma strptime_fields (date_str : str) (date_obj : date)
    (d1 d2 m1 m2 : ascii) (year_part : str) :
  date_str = [d1; d2; "-"%char; m1; m2; "-"%char] ++ year_part ->
  strptime date_str = Some date_obj ->
  day date_obj = digits_val [d1; d2] /\ month date_obj = digits_val [m1; m2]
  /\ (length year_part = 2%nat /\
      year date_obj = (if (digits_val year_part <=? 68)%Z then digits_val year_part + 2000
                       else digits_val year_part + 1900)%Z
      \/ length year_part = 4%nat /\ year date_obj = digits_val year_part).
Proof.
  intros -> H. cbn [app strptime] in H.
  destruct (Nat.eqb (length year_part) 2) eqn:L2.
  - apply Nat.eqb_eq in L2.
    destruct (_ && _ && _ && _)%bool in H; [|discriminate].
    injection H as <-. cbn [day month year]. auto.
  - destruct (Nat.eqb (length year_part) 4) eqn:L4; [|discriminate].
    apply Nat.eqb_eq in L4.
    destruct (1 <=? digits_val year_part)%Z; [|discriminate].
    destruct (_ && _ && _ && _)%bool in H; [|discriminate].
    injection H as <-. cbn [day month year]. auto.
Qed.

Lemma digits_val_bound (s : str) :
  Forall (fun c => is_digit c = true) s ->
  (0 <= digits_val s < 10 ^ Z.of_nat (length s))%Z.
Proof.
  induction s as [|c s IH] using rev_ind; intro H; [cbn; lia|].
  apply Forall_app in H as [Hs Hc]. inversion Hc as [|? ? Hd _]; subst.
  destruct (digit_char_val c Hd) as [_ Hr]. specialize (IH Hs).
  rewrite digits_val_snoc, length_app, Nat.add_1_r, Nat2Z.inj_succ, Z.pow_succ_r by lia.
  lia.
Qed.

Lemma year_width_four (y : Z) : (1000 <= y)%Z -> year_width y = 4%nat.
Proof.
  intro H. unfold year_width.
  destruct (Z.ltb_spec y 10); [lia|]. destruct (Z.ltb_spec y 100); [lia|].
  destruct (Z.ltb_spec y 1000); [lia | reflexivity].
Qed.

Lemma digits_val_century (a b y1 y2 : ascii) :
  digits_val (a :: b :: [y1; y2])
  = (1000 * digit_val a + 100 * digit_val b + digits_val [y1; y2])%Z.
Proof. unfold digits_val. cbn [fold_left]. lia. Qed.

(** X6: the Date of a record is the date token of its line, written
    DD-MM-YYYY: a token with a four-digit year is kept as it is (years from
    1000), and a two-digit year gets the century in front, 20 for 00 to 68
    and 19 for 69 to 99. *)
Theorem date_is_normalised_token
    (line date_str : str) (prev : option float) (r : Transaction) (b : option float) :
  parse_transaction_line line prev = (Some r, b) ->
  match_date_prefix line = Some date_str ->
  (length date_str = 10%nat -> (1000 <= digits_val (skipn 6 date_str))%Z) ->
  Date r = normalised_date date_str /\ length (Date r) = 10%nat.
Proof.
  intros Hp Hd Hy.
  destruct (parse_some_fields _ _ _ _ Hp) as [ds [d [start [amt [g2 [E1 [E2 [_ [HD _]]]]]]]]].
  rewrite Hd in E1. injection E1 as <-.
  destruct (match_date_prefix_shape _ _ Hd)
    as [d1 [d2 [m1 [m2 [y1 [y2 [more [Hs [Hdig [Hmore Hlen]]]]]]]]]].
  assert (Forall (fun c => is_digit c = true) [d1; d2]) as Hdd.
  { inversion Hdig as [|? ? A1 T1]; inversion T1 as [|? ? A2 _]; subst.
    repeat constructor; assumption. }
  assert (Forall (fun c => is_digit c = true) [m1; m2]) as Hmm.
  { do 2 (inversion Hdig as [|? ? _ Hdig']; clear Hdig; rename Hdig' into Hdig; subst).
    inversion Hdig as [|? ? A1 T1]; inversion T1 as [|? ? A2 _]; subst.
    repeat constructor; assumption. }
  assert (Forall (fun c => is_digit c = true) (y1 :: y2 :: more)) as Hyy.
  { do 4 (inversion Hdig as [|? ? _ Hdig']; clear Hdig; rename Hdig' into Hdig; subst).
    inversion Hdig as [|? ? A1 T1]; inversion T1 as [|? ? A2 _]; subst.
    repeat constructor; assumption. }
  destruct (strptime_fields date_str d d1 d2 m1 m2 (y1 :: y2 :: more) Hs E2)
    as [Hday [Hmonth Hyear]].
  assert (zero_padded 2 (day d) = [d1; d2]) as Pd
    by (rewrite Hday; exact (zero_padded_digits [d1; d2] Hdd)).
  assert (zero_padded 2 (month d) = [m1; m2]) as Pm
    by (rewrite Hmonth; exact (zero_padded_digits [m1; m2] Hmm)).
  assert (year_width (year d) = 4%nat) as Pw.
  { apply year_width_four. destruct Hyear as [[L Hyr] | [L Hyr]]; rewrite Hyr.
    - pose proof (digits_val_bound _ Hyy) as Hb. rewrite L in Hb.
      change (10 ^ Z.of_nat 2)%Z with 100%Z in Hb.
      destruct (digits_val (y1 :: y2 :: more) <=? 68)%Z; lia.
    - assert (length date_str = 10%nat) as L10.
      { rewrite Hs. cbn [app length] in L |- *. lia. }
      specialize (Hy L10). rewrite Hs in Hy. exact Hy. }
  rewrite HD. unfold strftime. rewrite Pd, Pm, Pw.
  unfold normalised_date. rewrite Hs. cbn [app length firstn skipn].
  destruct Hyear as [[L Hyr] | [L Hyr]].
  - destruct more as [|x more]; [|simpl in L; lia].
    cbn [length Nat.eqb]. rewrite Hyr.
    destruct (digits_val [y1; y2] <=? 68)%Z.
    + replace (digits_val [y1; y2] + 2000)%Z
        with (digits_val ("2"%char :: "0"%char :: [y1; y2]))
        by (rewrite digits_val_century; vm_compute (digit_val "2");
            vm_compute (digit_val "0"); vm_compute (digit_val "1");
            vm_compute (digit_val "9"); lia).
      assert (Forall (fun c => is_digit c = true) ("2"%char :: "0"%char :: [y1; y2]))
        as Hc by (repeat constructor; inversion Hyy as [|? ? A1 T1];
                  inversion T1 as [|? ? A2 _]; assumption).
      pose proof (zero_padded_digits _ Hc) as Pc. cbn [length] in Pc. rewrite Pc.
      split; reflexivity.
    + replace (digits_val [y1; y2] + 1900)%Z
        with (digits_val ("1"%char :: "9"%char :: [y1; y2]))
        by (rewrite digits_val_century; vm_compute (digit_val "2");
            vm_compute (digit_val "0"); vm_compute (digit_val "1");
            vm_compute (digit_val "9"); lia).
      assert (Forall (fun c => is_digit c = true) ("1"%char :: "9"%char :: [y1; y2]))
        as Hc by (repeat constructor; inversion Hyy as [|? ? A1 T1];
                  inversion T1 as [|? ? A2 _]; assumption).
      pose proof (zero_padded_digits _ Hc) as Pc. cbn [length] in Pc. rewrite Pc.
      split; reflexivity.
  - destruct more as [|x [|x' [|x'' more]]]; simpl in L; try lia.
    cbn [length Nat.eqb]. rewrite Hyr.
    pose proof (zero_padded_digits [y1; y2; x; x'] Hyy) as Pc. cbn [length] in Pc.
    rewrite Pc. split; reflexivity.
Qed.

Lemma date_is_normalised_token_witness :
  lit "05-03-1969" = normalised_date (lit "05-03-69")
  /\ length (lit "05-03-1969") = 10%nat.
Proof.
  apply (date_is_normalised_token (lit "05-03-69 PAY 1.00") (lit "05-03-69") None
           {| Date := lit "05-03-1969"; Particulars := lit "PAY"; Deposit := zero;
              Withdrawals := zero; Closing_Balance := lit "1.00Cr" |}
           (Some (float_of (lit "1.00")))).
  - reflexivity.
  - reflexivity.
  - discriminate.
Defined.

(** X7: a date token with a three-digit year, which the date pattern lets
    through, is no date: the line gives no record and the previous balance
    comes back. *)
Theorem three_digit_year_rejected (line date_str : str) (prev : option float) :
  match_date_prefix line = Some date_str ->
  length date_str = 9%nat ->
  parse_transaction_line line prev = (None, prev).
Proof.
  intros Hd L.
  destruct (match_date_prefix_shape _ _ Hd)
    as [d1 [d2 [m1 [m2 [y1 [y2 [more [Hs _]]]]]]]].
  unfold parse_transaction_line. rewrite Hd.
  assert (strptime date_str = None) as ->; [|reflexivity].
  subst date_str. cbn [app length] in L.
  destruct more as [|x [|x' more]]; simpl in L; try lia.
  reflexivity.
Qed.

Lemma three_digit_year_rejected_witness :
  parse_transaction_line (lit "01-01-202 PAY 1.00Cr") (Some zero) = (None, Some zero).
Proof.
  apply (three_digit_year_rejected (lit "01-01-202 PAY 1.00Cr") (lit "01-01-202")).
  - reflexivity.
  - reflexivity.
Defined.

(** X8: a record holds nothing but pieces of its line: after the date
    token the trimmed line is a narration, a balance figure and an optional
    "Cr" or "Dr"; Particulars is the trimmed narration and Closing Balance
    the figure with its polarity, "Cr" when there is none. *)
Theorem record_fields_from_line
    (line : str) (prev : option float) (r : Transaction) (b : option float) :
  parse_transaction_line line prev = (Some r, b) ->
  exists date_str narration amt polarity,
    match_date_prefix line = Some date_str
    /\ strip (skipn (length date_str) line) = narration ++ amt ++ polarity
    /\ amount_string amt
    /\ (polarity = [] \/ polarity = lit "Cr" \/ polarity = lit "Dr")
    /\ Particulars r = strip narration
    /\ Closing_Balance r = amt ++ polarity_or_credit polarity.
Proof.
  intro H.
  destruct (parse_some_fields _ _ _ _ H)
    as [ds [d [start [amt [g2 [E1 [_ [Hs [_ [HP HC]]]]]]]]]].
  destruct (search_balance_from_spec _ _ _ _ _ Hs) as [Ha [Hg [pre [tail [Hr [Hst He]]]]]].
  assert (tail = []) as ->.
  { apply (stripped_at_end (skipn (length ds) line) (pre ++ amt ++ group_text g2) tail);
      [|exact He]. rewrite Hr, <- !app_assoc. reflexivity. }
  rewrite app_nil_r in Hr.
  exists ds, pre, amt, (group_text g2).
  split; [exact E1|]. split; [exact Hr|]. split; [exact Ha|].
  split; [destruct Hg as [-> | [-> | ->]]; simpl; auto|].
  split.
  - rewrite HP, Hr, Hst. cbn [Nat.add].
    rewrite firstn_app, Nat.sub_diag, firstn_all, firstn_O, app_nil_r. reflexivity.
  - rewrite HC. destruct Hg as [-> | [-> | ->]]; reflexivity.
Qed.

Lemma record_fields_from_line_witness :
  exists date_str narration amt polarity,
    match_date_prefix (lit "01-01-24  UPI TO XYZ   2,500.00") = Some date_str
    /\ strip (skipn (length date_str) (lit "01-01-24  UPI TO XYZ   2,500.00"))
       = narration ++ amt ++ polarity
    /\ amount_string amt
    /\ (polarity = [] \/ polarity = lit "Cr" \/ polarity = lit "Dr")
    /\ lit "UPI TO XYZ" = strip narration
    /\ lit "2,500.00Cr" = amt ++ polarity_or_credit polarity.
Proof.
  apply (record_fields_from_line (lit "01-01-24  UPI TO XYZ   2,500.00") None
           {| Date := lit "01-01-2024"; Particulars := lit "UPI TO XYZ"; Deposit := zero;
              Withdrawals := zero; Closing_Balance := lit "2,500.00Cr" |}
           (Some (float_of (lit "2500.00")))).
  reflexivity.
Defined.

(** ** The walker *)

Lemma split_lines_acc_newline (a b cur : str) :
  split_lines_acc cur (a ++ newline :: b) = split_lines_acc cur a ++ split_lines b.
Proof.
  revert cur. induction a as [|c a IH]; intro cur; cbn [app split_lines_acc].
  - rewrite ascii_eqb_refl. reflexivity.
  - destruct (ascii_eqb c newline); [cbn [app]; f_equal|]; apply IH.
Qed.

Lemma split_lines_newline (a b : str) :
  split_lines (a ++ newline :: b) = split_lines a ++ split_lines b.
Proof. apply split_lines_acc_newline. Qed.

Lemma walk_lines_app (st : walker) (a b : list str) :
  walk_lines st (a ++ b) = walk_lines (walk_lines st a) b.
Proof. apply fold_left_app. Qed.

Lemma walk_pages_lines (pages : list str) :
  forall st, walk_pages st pages = walk_lines st (lines_of pages).
Proof.
  induction pages as [|p pages IH]; intro st; [reflexivity|].
  unfold lines_of. cbn [map concat]. rewrite walk_lines_app. apply IH.
Qed.

(** X9: the walker's state runs on from page to page: extraction sees the
    document as one list of lines, and joining two consecutive pages with a
    newline into one page changes nothing. *)
Theorem page_breaks_do_not_matter (before after : list str) (page1 page2 : str) :
  extract_transactions (before ++ page1 :: page2 :: after)
  = extract_transactions (before ++ (page1 ++ newline :: page2) :: after)
  /\ extract_transactions (before ++ page1 :: page2 :: after)
     = finish (walk_lines initial (lines_of (before ++ page1 :: page2 :: after))).
Proof.
  unfold extract_transactions. rewrite !walk_pages_lines. split; [|reflexivity].
  f_equal. f_equal. unfold lines_of. rewrite !map_app, !concat_app. f_equal.
  cbn [map concat]. rewrite split_lines_newline, app_assoc. reflexivity.
Qed.

(** X10: noise lines are invisible to extraction: two documents whose
    lines differ by one noise line give the same records. *)
Theorem noise_line_is_invisible (pdf pdf' : list str) (before after : list str) (line : str) :
  lines_of pdf = before ++ line :: after ->
  lines_of pdf' = before ++ after ->
  is_noise (strip line) = true ->
  extract_transactions pdf = extract_transactions pdf'.
Proof.
  intros H H' Hn. unfold extract_transactions.
  rewrite !walk_pages_lines, H, H', !walk_lines_app. f_equal.
  unfold walk_lines at 1. cbn [fold_left]. rewrite (step_noise _ _ Hn). reflexivity.
Qed.

Lemma noise_line_is_invisible_witness :
  extract_transactions
    [unlines [lit "01-01-24 PAY 100.00Cr"; lit "Page 1 of 2"; lit "REF 77"]]
  = extract_transactions [unlines [lit "01-01-24 PAY 100.00Cr"; lit "REF 77"]].
Proof.
  apply (noise_line_is_invisible _ _ [lit "01-01-24 PAY 100.00Cr"] [lit "REF 77"]
           (lit "Page 1 of 2")).
  - reflexivity.
  - reflexivity.
  - reflexivity.
Defined.

Lemma length_step (st : walker) (line : str) :
  (length (entries (step st line))
   <= length (entries st) + (if is_header line then 1 else 0))%nat.
Proof.
  unfold step, is_header.
  destruct (is_noise (strip line)); [lia|].
  destruct (match_date_prefix (strip line)) as [ds|]; [|cbn [entries]; lia].
  pose proof (length_flush (entries st) (narration_buffer st)) as Hf.
  destruct (flush (entries st) (narration_buffer st)) as [es buffer]. cbn [fst] in Hf.
  destruct (parse_transaction_line (strip line) (prev_balance st)) as [[r|] b];
    cbn [entries]; [rewrite length_app; simpl|]; lia.
Qed.

Lemma length_walk_lines (lines : list str) :
  forall st,
    (length (entries (walk_lines st lines))
     <= length (entries st) + length (filter is_header lines))%nat.
Proof.
  unfold walk_lines. induction lines as [|l lines IH]; intro st; cbn [fold_left filter].
  - lia.
  - specialize (IH (step st l)). pose proof (length_step st l) as Hs.
    destruct (is_header l); cbn [length]; lia.
Qed.

(** X11: there are at most as many records as lines that start with a
    date token; a document without such a line gives no record. *)
Theorem records_bounded_by_headers (pdf : list str) :
  (length (extract_transactions pdf) <= length (filter is_header (lines_of pdf)))%nat
  /\ (filter is_header (lines_of pdf) = [] -> extract_transactions pdf = []).
Proof.
  assert (length (extract_transactions pdf) <= length (filter is_header (lines_of pdf)))%nat
    as H.
  { unfold extract_transactions, finish. rewrite walk_pages_lines, length_flush.
    apply (length_walk_lines (lines_of pdf) initial). }
  split; [exact H|].
  intro E. rewrite E in H. destruct (extract_transactions pdf); [reflexivity|].
  simpl in H. lia.
Qed.

Lemma step_continuation (st : walker) (line : str) :
  is_continuation line = true ->
  step st line
  = {| entries := entries st; prev_balance := prev_balance st;
       narration_buffer := narration_buffer st ++ lit " " ++ strip line |}.
Proof.
  unfold is_continuation, is_header, step. intro H.
  apply andb_true_iff in H as [Hn Hh]. apply negb_true_iff in Hn. rewrite Hn.
  destruct (match_date_prefix (strip line)); [discriminate|].
  rewrite strip_idem. reflexivity.
Qed.

Lemma walk_continuations (lines : list str) :
  forall st,
    forallb is_continuation lines = true ->
    walk_lines st lines
    = {| entries := entries st; prev_balance := prev_balance st;
         narration_buffer :=
           narration_buffer st ++ concat (map (fun l => lit " " ++ strip l) lines) |}.
Proof.
  unfold walk_lines. induction lines as [|l lines IH]; intros st H; cbn [fold_left map concat].
  - rewrite app_nil_r. destruct st; reflexivity.
  - cbn [forallb] in H. apply andb_true_iff in H as [Hl Hs].
    rewrite (IH _ Hs), (step_continuation st l Hl).
    cbn [entries prev_balance narration_buffer]. rewrite <- !app_assoc. reflexivity.
Qed.

Lemma continuation_not_blank (line : str) :
  is_continuation line = true -> strip line <> [].
Proof.
  unfold is_continuation. intros H E. rewrite E in H. discriminate.
Qed.

Lemma concat_spaced (texts : list str) :
  texts <> [] ->
  concat (map (fun t => lit " " ++ t) texts) = lit " " ++ join_spaces texts.
Proof.
  induction texts as [|t texts IH]; [congruence|]. intros _.
  destruct texts as [|t' texts].
  - cbn. rewrite app_nil_r. reflexivity.
  - specialize (IH ltac:(discriminate)).
    rewrite map_cons, concat_cons. cbn [join_spaces].
    rewrite <- app_assoc. f_equal. f_equal. exact IH.
Qed.

Lemma join_spaces_snoc (texts : list str) (t : str) :
  texts <> [] -> join_spaces (texts ++ [t]) = join_spaces texts ++ " "%char :: t.
Proof.
  induction texts as [|x texts IH]; [congruence|]. intros _.
  destruct texts as [|y texts]; [reflexivity|].
  specialize (IH ltac:(discriminate)).
  change (join_spaces ((x :: y :: texts) ++ [t]))
    with (x ++ " "%char :: join_spaces ((y :: texts) ++ [t])).
  rewrite IH. change (join_spaces (x :: y :: texts))
    with (x ++ " "%char :: join_spaces (y :: texts)).
  rewrite <- app_assoc. reflexivity.
Qed.

(** Stripped texts joined by spaces have no whitespace at either end. *)
Lemma join_spaces_stripped (lines : list str) :
  Forall (fun l => strip l <> []) lines ->
  strip (join_spaces (map strip lines)) = join_spaces (map strip lines).
Proof.
  intro H. apply strip_fixed.
  - intros c t E. destruct H as [|l lines Hl H]; [discriminate|].
    destruct (strip l) as [|x s] eqn:El; [congruence|].
    assert (c = x) as ->.
    { cbn [map join_spaces] in E. rewrite El in E.
      destruct (map strip lines); cbn in E; congruence. }
    eapply strip_head. exact El.
  - intros c t E.
    destruct (exists_last (l := lines)) as [lines0 [ln ->]].
    { intros ->. destruct t; discriminate. }
    apply Forall_app in H as [_ Hn]. inversion Hn as [|? ? Hln _]; subst.
    destruct (exists_last Hln) as [u [z Hz]].
    rewrite map_app in E. cbn [map] in E.
    destruct lines0 as [|l0 lines0].
    + cbn in E. eapply strip_last. exact E.
    + rewrite join_spaces_snoc in E by discriminate.
      rewrite Hz in E.
      change (join_spaces (map strip (l0 :: lines0)) ++ " "%char :: u ++ [z])
        with (join_spaces (map strip (l0 :: lines0)) ++ (" "%char :: u) ++ [z]) in E.
      rewrite app_assoc in E. apply app_inj_tail in E as [_ <-].
      eapply strip_last. exact Hz.
Qed.

(** X12: lines that follow a record without being noise or headers are
    folded into its Particulars, trimmed and with one space before each:
    when the document ends, and when the next header line comes, whose
    record, if it parses, goes after. *)
Theorem continuation_lines_are_folded (st : walker) (lines : list str) :
  narration_buffer st = [] ->
  entries st <> [] ->
  lines <> [] ->
  forallb is_continuation lines = true ->
  finish (walk_lines st lines)
  = append_to_last (entries st) (lit " " ++ join_spaces (map strip lines))
  /\ forall header,
       is_noise (strip header) = false -> is_header header = true ->
       entries (step (walk_lines st lines) header)
       = append_to_last (entries st) (lit " " ++ join_spaces (map strip lines))
         ++ match fst (parse_transaction_line (strip header) (prev_balance st)) with
            | Some r => [r]
            | None => []
            end.
Proof.
  intros Hb He Hl Hc.
  assert (concat (map (fun l => lit " " ++ strip l) lines)
          = lit " " ++ join_spaces (map strip lines)) as Hcat.
  { rewrite <- (map_map strip (fun t => lit " " ++ t)). apply concat_spaced.
    destruct lines; [congruence | discriminate]. }
  assert (strip (join_spaces (map strip lines)) = join_spaces (map strip lines)) as Hj.
  { apply join_spaces_stripped. apply Forall_forall. intros l Hin.
    apply continuation_not_blank. rewrite forallb_forall in Hc. apply Hc. exact Hin. }
  assert (flush (entries st) ([] ++ lit " " ++ join_spaces (map strip lines))
          = (append_to_last (entries st) (lit " " ++ join_spaces (map strip lines)), []))
    as Hf.
  { unfold flush. destruct (entries st) as [|e es]; [congruence|].
    change (strip ([] ++ lit " " ++ join_spaces (map strip lines)))
      with (strip (join_spaces (map strip lines))).
    rewrite Hj. reflexivity. }
  rewrite (walk_continuations lines st Hc), Hb, Hcat. split.
  - unfold finish. cbn [entries narration_buffer]. rewrite Hf. reflexivity.
  - intros header Hn Hh. unfold step, is_header in *. rewrite Hn.
    destruct (match_date_prefix (strip header)); [|discriminate].
    cbn [entries narration_buffer prev_balance]. rewrite Hf.
    destruct (parse_transaction_line (strip header) (prev_balance st)) as [[r|] b];
      cbn [entries fst]; [reflexivity | rewrite app_nil_r; reflexivity].
Qed.

Lemma continuation_lines_are_folded_witness :
  finish (walk_lines (step initial (lit "01-01-24 PAYMENT TO XYZ 1,000.00Cr"))
            [lit "REF NO 12345"; lit "  BRANCH 7 "])
  = append_to_last (entries (step initial (lit "01-01-24 PAYMENT TO XYZ 1,000.00Cr")))
      (lit " REF NO 12345 BRANCH 7").
Proof.
  apply (fun Hb He Hl Hc =>
           proj1 (continuation_lines_are_folded
                    (step initial (lit "01-01-24 PAYMENT TO XYZ 1,000.00Cr"))
                    [lit "REF NO 12345"; lit "  BRANCH 7 "] Hb He Hl Hc)).
  - reflexivity.
  - discriminate.
  - discriminate.
  - reflexivity.
Defined.

Lemma extends_refl (e : Transaction) : extends e e.
Proof. repeat split. exists []. rewrite app_nil_r. reflexivity. Qed.

Lemma extends_trans (e1 e2 e3 : Transaction) :
  extends e1 e2 -> extends e2 e3 -> extends e1 e3.
Proof.
  intros [A1 [B1 [C1 [D1 [t1 P1]]]]] [A2 [B2 [C2 [D2 [t2 P2]]]]].
  repeat split; try congruence.
  exists (t1 ++ t2). rewrite P2, P1, app_assoc. reflexivity.
Qed.

Lemma kept_refl (es : list Transaction) : kept es es.
Proof. intros i e H. exists e. split; [exact H|]. split; [apply extends_refl | reflexivity]. Qed.

Lemma kept_length (es es' : list Transaction) : kept es es' -> (length es <= length es')%nat.
Proof.
  intro H. destruct es as [|x es0 _] using rev_ind; [simpl; lia|].
  destruct (H (length es0) x) as [e' [Hn _]].
  { rewrite nth_error_app2, Nat.sub_diag by lia. reflexivity. }
  assert (length es0 < length es')%nat by (apply nth_error_Some; congruence).
  rewrite length_app. simpl. lia.
Qed.

Lemma kept_trans (es1 es2 es3 : list Transaction) :
  kept es1 es2 -> kept es2 es3 -> kept es1 es3.
Proof.
  intros H12 H23 i e H.
  destruct (H12 i e H) as [e2 [N2 [X2 F2]]].
  destruct (H23 i e2 N2) as [e3 [N3 [X3 F3]]].
  exists e3. split; [exact N3|]. split; [eapply extends_trans; eassumption|].
  intro L. pose proof (kept_length _ _ H12).
  rewrite F3 by lia. apply F2. exact L.
Qed.

Lemma kept_append_to_last (es : list Transaction) (text : str) :
  kept es (append_to_last es text).
Proof.
  destruct es as [|x es _] using rev_ind; [apply kept_refl|].
  rewrite append_to_last_snoc. intros i e H.
  destruct (Nat.lt_ge_cases i (length es)) as [L|L].
  - rewrite nth_error_app1 in H |- * by exact L.
    exists e. split; [exact H|]. split; [apply extends_refl | reflexivity].
  - assert (i = length es) as ->.
    { assert (i < length (es ++ [x]))%nat as Hi by (apply nth_error_Some; congruence).
      rewrite length_app in Hi. simpl in Hi. lia. }
    rewrite nth_error_app2, Nat.sub_diag in H |- * by lia.
    injection H as <-. exists (append_particulars x text).
    split; [reflexivity|]. split.
    + repeat split. exists text. reflexivity.
    + rewrite length_app. simpl. lia.
Qed.

Lemma kept_snoc (es : list Transaction) (r : Transaction) : kept es (es ++ [r]).
Proof.
  intros i e H. exists e. split; [|split; [apply extends_refl | reflexivity]].
  rewrite nth_error_app1; [exact H | apply nth_error_Some; congruence].
Qed.

Lemma kept_flush (es : list Transaction) (buffer : str) : kept es (fst (flush es buffer)).
Proof.
  unfold flush. destruct (nonempty buffer && nonempty es)%bool; cbn [fst];
    [apply kept_append_to_last | apply kept_refl].
Qed.

Lemma kept_step (st : walker) (line : str) : kept (entries st) (entries (step st line)).
Proof.
  unfold step. destruct (is_noise (strip line)); [apply kept_refl|].
  destruct (match_date_prefix (strip line)); [|apply kept_refl].
  pose proof (kept_flush (entries st) (narration_buffer st)) as Hf.
  destruct (flush (entries st) (narration_buffer st)) as [es buffer]. cbn [fst] in Hf.
  destruct (parse_transaction_line (strip line) (prev_balance st)) as [[r|] b];
    cbn [entries]; [|exact Hf].
  eapply kept_trans; [exact Hf | apply kept_snoc].
Qed.

Lemma kept_walk_lines (lines : list str) :
  forall st, kept (entries st) (entries (walk_lines st lines)).
Proof.
  unfold walk_lines. induction lines as [|l lines IH]; intro st; cbn [fold_left].
  - apply kept_refl.
  - eapply kept_trans; [apply kept_step | apply IH].
Qed.

(** X13: a record, once in the list, stays at its place whatever lines
    follow: its Date, Deposit, Withdrawals and Closing Balance never change,
    its Particulars can only grow at the end, and a record that is not the
    last one does not change at all. *)
Theorem records_are_kept (st : walker) (lines : list str) (i : nat) (e : Transaction) :
  nth_error (entries st) i = Some e ->
  exists e',
    nth_error (finish (walk_lines st lines)) i = Some e'
    /\ extends e e'
    /\ (S i < length (entries st) -> e' = e)%nat.
Proof.
  apply (kept_trans _ _ _ (kept_walk_lines lines st)). apply kept_flush.
Qed.

Lemma records_are_kept_witness :
  exists e',
    nth_error (finish (walk_lines example_state
                         [lit "NEFT 9"; lit "02-01-24 FEE 90.00Cr"; lit "GST"])) 0
    = Some e'
    /\ extends example_record e'.
Proof.
  destruct (records_are_kept example_state
              [lit "NEFT 9"; lit "02-01-24 FEE 90.00Cr"; lit "GST"] 0 example_record eq_refl)
    as [e' [H [X _]]].
  exists e'. split; [exact H | exact X].
Defined.

(** ** The Ledger Name column *)

Section LedgerProperties.

Variable partial_ratio : str -> str -> Q.

Lemma where_nonempty_blank {A : Type} (g : A -> str) (l : list A) :
  where_nonempty (map (fun _ => lit "") l) (map g l) = map g l.
Proof.
  unfold where_nonempty. induction l as [|x l IH]; [reflexivity|].
  cbn [map combine]. f_equal. exact IH.
Qed.

(** X14: under "Custom + Default" the two checkboxes compose as follows,
    whatever they are set to: the default mapping, when enabled, decides
    the records it has a ledger for; the custom mapping, when enabled,
    decides the others; a record neither decides has an empty Ledger Name.
    Every record gets one cell, in order. *)
Theorem custom_default_composition
    (enable_default enable_custom : bool)
    (custom_map trend_map : list (str * str)) (data : list Transaction) :
  ledger_names partial_ratio Custom_Default_Mapping enable_default enable_custom
    custom_map trend_map data
  = map (composed_ledger enable_default enable_custom custom_map) data.
Proof.
  unfold ledger_names, composed_ledger.
  destruct enable_custom; cbn [andb].
  - destruct custom_map as [|kv custom_map]; cbn [nonempty].
    + destruct enable_default; rewrite ?map_map; apply map_ext; intro r.
      * destruct (default_mapping (Particulars r)); reflexivity.
      * reflexivity.
    + destruct enable_default; rewrite !map_map.
      * apply (where_nonempty_map (fun r => default_mapping (Particulars r))
                 (fun r => apply_custom_mapping (Particulars r) (kv :: custom_map))).
      * apply (where_nonempty_blank
                 (fun r => apply_custom_mapping (Particulars r) (kv :: custom_map))).
  - destruct enable_default; rewrite ?map_map; apply map_ext; intro r.
    + destruct (default_mapping (Particulars r)); reflexivity.
    + reflexivity.
Qed.

End LedgerProperties.

(** ** Mapping files *)

Lemma str_eqb_iff (a b : str) : str_eqb a b = true <-> a = b.
Proof.
  revert b. induction a as [|x a IH]; intros [|y b]; simpl; split; intro H;
    try reflexivity; try discriminate.
  - apply andb_true_iff in H as [Hx Ha]. apply ascii_eqb_eq in Hx.
    apply IH in Ha. congruence.
  - injection H as -> ->. rewrite ascii_eqb_refl. simpl. apply IH. reflexivity.
Qed.

Lemma str_eqb_refl (a : str) : str_eqb a a = true.
Proof. apply str_eqb_iff. reflexivity. Qed.

Lemma str_eqb_sym (a b : str) : str_eqb a b = str_eqb b a.
Proof.
  destruct (str_eqb a b) eqn:E; destruct (str_eqb b a) eqn:E'; try reflexivity.
  - apply str_eqb_iff in E. subst. rewrite str_eqb_refl in E'. discriminate.
  - apply str_eqb_iff in E'. subst. rewrite str_eqb_refl in E. discriminate.
Qed.

Lemma app_same_length_tail {A : Type} (a b c d : list A) :
  a ++ b = c ++ d -> length b = length d -> a = c /\ b = d.
Proof.
  intros H L.
  assert (length a = length c) as La.
  { apply (f_equal (@length A)) in H. rewrite !length_app in H. lia. }
  split.
  - apply (f_equal (firstn (length a))) in H.
    rewrite firstn_app, Nat.sub_diag, firstn_all, firstn_O, app_nil_r in H.
    rewrite La, firstn_app, Nat.sub_diag, firstn_all, firstn_O, app_nil_r in H. exact H.
  - apply (f_equal (skipn (length a))) in H.
    rewrite skipn_app, Nat.sub_diag, skipn_all, skipn_O in H.
    rewrite La, skipn_app, Nat.sub_diag, skipn_all, skipn_O in H. exact H.
Qed.

Lemma length_last_four (s : str) : (4 <= length s)%nat -> length (last_four s) = 4%nat.
Proof. intro H. unfold last_four. rewrite length_skipn. lia. Qed.

(** X15: for account numbers of four characters or more, two accounts
    use the same mapping file exactly when their names agree once spaces
    are read as underscores and their account numbers end in the same four
    characters. *)
Theorem same_file_iff (a1 a2 : account) :
  (4 <= length (account_number a1))%nat ->
  (4 <= length (account_number a2))%nat ->
  file_path a1 = file_path a2
  <-> replace_spaces (name a1) = replace_spaces (name a2)
      /\ last_four (account_number a1) = last_four (account_number a2).
Proof.
  intros L1 L2. unfold file_path, user_id. split.
  - intro H. apply app_inv_tail in H.
    rewrite !app_assoc in H.
    apply app_same_length_tail in H as [H Hl];
      [|rewrite !length_last_four by assumption; reflexivity].
    apply app_inv_tail in H. split; assumption.
  - intros [-> ->]. reflexivity.
Qed.

Lemma same_file_iff_witness :
  file_path {| name := lit "Asha Rao"; account_number := lit "00112233" |}
  = file_path {| name := lit "Asha_Rao"; account_number := lit "99992233" |}.
Proof.
  apply (same_file_iff {| name := lit "Asha Rao"; account_number := lit "00112233" |}
                       {| name := lit "Asha_Rao"; account_number := lit "99992233" |}).
  - simpl. lia.
  - simpl. lia.
  - split; reflexivity.
Defined.

Lemma read_after_write (path path' : str) (data : mapping_data) (fs : files) :
  read_file path'
    ((path, data) :: filter (fun f => negb (str_eqb (fst f) path)) fs)
  = if str_eqb path path' then Some data else read_file path' fs.
Proof.
  unfold read_file. cbn [find fst].
  destruct (str_eqb path path') eqn:E; [reflexivity|].
  f_equal. induction fs as [|[p d] fs IH]; [reflexivity|].
  cbn [filter find fst].
  destruct (str_eqb p path) eqn:Ep; cbn [negb].
  - apply str_eqb_iff in Ep. subst p. rewrite E. exact IH.
  - cbn [find fst]. destruct (str_eqb p path'); [reflexivity | exact IH].
Qed.

Lemma filter_after_write (path : str) (data : mapping_data) (fs : files) :
  filter (fun f => negb (str_eqb (fst f) path))
    ((path, data) :: filter (fun f => negb (str_eqb (fst f) path)) fs)
  = filter (fun f => negb (str_eqb (fst f) path)) fs.
Proof.
  cbn [filter fst]. rewrite str_eqb_refl. cbn [negb].
  induction fs as [|[p d] fs IH]; [reflexivity|].
  cbn [filter fst]. destruct (negb (str_eqb p path)) eqn:E.
  - cbn [filter fst]. rewrite E. f_equal. exact IH.
  - exact IH.
Qed.

Lemma load_after_write (a : account) (path : str) (data : mapping_data) (fs : files) :
  load_mapping a ((path, data) :: filter (fun f => negb (str_eqb (fst f) path)) fs)
  = if str_eqb path (file_path a)
    then (stored_custom_map data, stored_trend_map data)
    else load_mapping a fs.
Proof.
  unfold load_mapping. rewrite read_after_write.
  destruct (str_eqb path (file_path a)); reflexivity.
Qed.

(** X16: after a [save_mapping] that succeeded, [load_mapping] returns
    the saved maps for every account that uses the same file, and what it
    returned before for every other; and a later save for the account
    leaves nothing of the earlier one. *)
Theorem load_after_save (writable : str -> bool)
    (a1 a2 : account) (custom_map trend_map : list (str * str)) (fs fs' : files) :
  save_mapping writable a1 custom_map trend_map fs = Some fs' ->
  load_mapping a2 fs'
  = (if str_eqb (file_path a1) (file_path a2) then (custom_map, trend_map)
     else load_mapping a2 fs)
  /\ forall custom_map' trend_map',
       save_mapping writable a1 custom_map' trend_map' fs'
       = save_mapping writable a1 custom_map' trend_map' fs.
Proof.
  unfold save_mapping, write_file. intro H.
  destruct (writable (file_path a1)); [|discriminate].
  injection H as <-. split.
  - rewrite load_after_write. reflexivity.
  - intros custom_map' trend_map'. rewrite filter_after_write. reflexivity.
Qed.

Lemma load_after_save_witness :
  load_mapping {| name := lit "Asha_Rao"; account_number := lit "99992233" |}
    [(lit "Asha_Rao_2233_mapping.json",
      {| stored_custom_map := [(lit "rent", lit "Rent")]; stored_trend_map := [] |})]
  = ([(lit "rent", lit "Rent")], []).
Proof.
  apply (load_after_save (fun _ => true)
           {| name := lit "Asha Rao"; account_number := lit "00112233" |}
           {| name := lit "Asha_Rao"; account_number := lit "99992233" |}
           [(lit "rent", lit "Rent")] [] []).
  reflexivity.
Defined.

(** ** The maps built from the form *)

Lemma dict_get_set (d : list (str * str)) (k v k' : str) :
  dict_get (dict_set d k v) k' = if str_eqb k k' then Some v else dict_get d k'.
Proof.
  induction d as [|[k0 v0] d IH]; [reflexivity|].
  cbn [dict_set]. destruct (str_eqb k0 k) eqn:E.
  - apply str_eqb_iff in E. subst k0. cbn [dict_get].
    destruct (str_eqb k k'); reflexivity.
  - cbn [dict_get]. destruct (str_eqb k0 k') eqn:E'.
    + apply str_eqb_iff in E'. subst k0. rewrite str_eqb_sym, E. reflexivity.
    + exact IH.
Qed.

Lemma dict_set_keys (d : list (str * str)) (k v : str) :
  map fst (dict_set d k v)
  = if existsb (str_eqb k) (map fst d) then map fst d else map fst d ++ [k].
Proof.
  induction d as [|[k0 v0] d IH]; [reflexivity|].
  cbn [dict_set map fst existsb]. rewrite (str_eqb_sym k k0).
  destruct (str_eqb k0 k); cbn [orb map fst]; [reflexivity|].
  rewrite IH. destruct (existsb (str_eqb k) (map fst d)); reflexivity.
Qed.

Lemma dict_set_fresh (d : list (str * str)) (k v : str) :
  existsb (str_eqb k) (map fst d) = false -> dict_set d k v = d ++ [(k, v)].
Proof.
  induction d as [|[k0 v0] d IH]; [reflexivity|].
  cbn [dict_set map fst existsb app]. rewrite (str_eqb_sym k k0).
  destruct (str_eqb k0 k); cbn [orb]; [discriminate|].
  intro H. rewrite (IH H). reflexivity.
Qed.

Lemma drop_duplicates_seen_ext (rows : list (str * str)) (s1 s2 : list str) :
  (forall x, existsb (str_eqb x) s1 = existsb (str_eqb x) s2) ->
  drop_duplicates_seen s1 rows = drop_duplicates_seen s2 rows.
Proof.
  revert s1 s2. induction rows as [|row rows IH]; intros s1 s2 H; [reflexivity|].
  cbn [drop_duplicates_seen]. rewrite (H (fst row)).
  destruct (existsb (str_eqb (fst row)) s2); [apply IH; exact H|].
  f_equal. apply IH. intro x. cbn [existsb]. rewrite (H x). reflexivity.
Qed.

Lemma existsb_snoc (x k : str) (s : list str) :
  existsb (str_eqb x) (s ++ [k]) = existsb (str_eqb x) (k :: s).
Proof.
  rewrite existsb_app. cbn [existsb]. rewrite orb_false_r. apply orb_comm.
Qed.

Lemma drop_duplicates_seen_fresh (rows : list (str * str)) (seen : list str) :
  NoDup (map fst (drop_duplicates_seen seen rows))
  /\ forall row, In row (drop_duplicates_seen seen rows) ->
                 In row rows /\ existsb (str_eqb (fst row)) seen = false.
Proof.
  revert seen. induction rows as [|row rows IH]; intro seen.
  - split; [constructor | intros ? []].
  - cbn [drop_duplicates_seen].
    destruct (existsb (str_eqb (fst row)) seen) eqn:E.
    + destruct (IH seen) as [N F]. split; [exact N|].
      intros r Hr. destruct (F r Hr). split; [right|]; assumption.
    + destruct (IH (fst row :: seen)) as [N F]. split.
      * cbn [map]. constructor; [|exact N].
        intro Hin. apply in_map_iff in Hin as [r [Hk Hr]].
        destruct (F r Hr) as [_ Hf]. cbn [existsb] in Hf.
        rewrite Hk, str_eqb_refl in Hf. discriminate.
      * intros r [<-|Hr]; [split; [left; reflexivity | exact E]|].
        destruct (F r Hr) as [Hin Hf]. cbn [existsb] in Hf.
        apply orb_false_iff in Hf as [_ Hf]. split; [right|]; assumption.
Qed.

Lemma dict_get_in (d : list (str * str)) (k v : str) :
  NoDup (map fst d) -> In (k, v) d -> dict_get d k = Some v.
Proof.
  induction d as [|[k0 v0] d IH]; intros N Hin; [destruct Hin|].
  cbn [map fst] in N. apply NoDup_cons_iff in N as [Hk N].
  cbn [dict_get]. destruct Hin as [Heq|Hin].
  - injection Heq as -> ->. rewrite str_eqb_refl. reflexivity.
  - destruct (str_eqb k0 k) eqn:E; [|apply IH; assumption].
    apply str_eqb_iff in E. subst k0. exfalso. apply Hk.
    apply in_map_iff. exists (k, v). split; [reflexivity | exact Hin].
Qed.

Lemma first_row_app (k : str) (a b : list (str * str)) :
  first_row k (a ++ b)
  = match first_row k a with Some row => Some row | None => first_row k b end.
Proof.
  unfold first_row. induction a as [|row a IH]; [reflexivity|].
  cbn [app find]. destruct (str_eqb (fst row) k); [reflexivity | exact IH].
Qed.

Lemma first_row_spec (k : str) (rows : list (str * str)) (row : str * str) :
  first_row k rows = Some row -> In row rows /\ fst row = k.
Proof.
  unfold first_row. intro H. apply find_some in H as [Hin Hk].
  apply str_eqb_iff in Hk. split; assumption.
Qed.

Lemma custom_fold_get (rows d : list (str * str)) (k : str) :
  dict_get
    (fold_left
       (fun custom_map row =>
          if (nonempty (fst row) && nonempty (snd row))%bool
          then dict_set custom_map (fst row) (snd row)
          else custom_map)
       rows d) k
  = match last_row k (valid_rows rows) with
    | Some row => Some (snd row)
    | None => dict_get d k
    end.
Proof.
  revert d. induction rows as [|[kw lg] rows IH]; intro d; [reflexivity|].
  cbn [fold_left]. rewrite IH. unfold valid_rows, last_row. cbn [filter fst snd].
  destruct (nonempty kw && nonempty lg)%bool; [|reflexivity].
  cbn [rev]. rewrite first_row_app.
  fold (valid_rows rows).
  destruct (first_row k (rev (valid_rows rows))); [reflexivity|].
  rewrite dict_get_set. unfold first_row. cbn [find fst snd].
  destruct (str_eqb kw k); reflexivity.
Qed.

Lemma custom_fold_keys (rows d : list (str * str)) :
  map fst
    (fold_left
       (fun custom_map row =>
          if (nonempty (fst row) && nonempty (snd row))%bool
          then dict_set custom_map (fst row) (snd row)
          else custom_map)
       rows d)
  = map fst d ++ map fst (drop_duplicates_seen (map fst d) (valid_rows rows)).
Proof.
  revert d. induction rows as [|[kw lg] rows IH]; intro d.
  - cbn. rewrite app_nil_r. reflexivity.
  - cbn [fold_left]. rewrite IH. unfold valid_rows. cbn [filter fst snd].
    fold (valid_rows rows).
    destruct (nonempty kw && nonempty lg)%bool; [|reflexivity].
    rewrite dict_set_keys. cbn [drop_duplicates_seen fst].
    destruct (existsb (str_eqb kw) (map fst d)); [reflexivity|].
    rewrite <- app_assoc. cbn [app map]. do 3 f_equal.
    apply drop_duplicates_seen_ext. intro x. apply existsb_snoc.
Qed.

(** X17: the custom map the form builds.  Its keywords are those of the
    rows that have both a keyword and a ledger, each once, in the order in
    which they first appear; the ledger of a keyword is the one of the last
    such row with it; and no keyword and no ledger in it is empty. *)
Theorem custom_map_of_form_rows (rows : list (str * str)) :
  map fst (custom_map_of_rows rows) = map fst (drop_duplicates (valid_rows rows))
  /\ NoDup (map fst (custom_map_of_rows rows))
  /\ (forall k, dict_get (custom_map_of_rows rows) k
                = option_map snd (last_row k (valid_rows rows)))
  /\ (forall k v, In (k, v) (custom_map_of_rows rows) -> k <> lit "" /\ v <> lit "").
Proof.
  assert (map fst (custom_map_of_rows rows)
          = map fst (drop_duplicates (valid_rows rows))) as Hk.
  { unfold custom_map_of_rows. rewrite custom_fold_keys. reflexivity. }
  assert (NoDup (map fst (custom_map_of_rows rows))) as N.
  { rewrite Hk. apply drop_duplicates_seen_fresh. }
  assert (forall k, dict_get (custom_map_of_rows rows) k
                    = option_map snd (last_row k (valid_rows rows))) as Hg.
  { intro k. unfold custom_map_of_rows. rewrite custom_fold_get.
    destruct (last_row k (valid_rows rows)); reflexivity. }
  repeat split; try assumption.
  - intros ->. apply (dict_get_in _ _ _ N) in H. rewrite Hg in H.
    destruct (last_row (lit "") (valid_rows rows)) as [row|] eqn:E; [|discriminate].
    apply first_row_spec in E as [Hin Hf]. apply in_rev in Hin.
    apply filter_In in Hin as [_ Hv]. destruct row as [kw lg].
    cbn [fst snd] in Hf, Hv. subst kw. discriminate.
  - intros ->. apply (dict_get_in _ _ _ N) in H. rewrite Hg in H.
    destruct (last_row k (valid_rows rows)) as [row|] eqn:E; [|discriminate].
    apply first_row_spec in E as [Hin Hf]. apply in_rev in Hin.
    apply filter_In in Hin as [_ Hv]. destruct row as [kw lg].
    cbn [option_map fst snd] in H, Hv. injection H as ->.
    rewrite andb_false_r in Hv. discriminate.
Qed.

Lemma dict_of_distinct_rows (rows d : list (str * str)) (seen : list str) :
  (forall x, existsb (str_eqb x) (map fst d) = true -> existsb (str_eqb x) seen = true) ->
  fold_left (fun d row => dict_set d (fst row) (snd row))
            (drop_duplicates_seen seen rows) d
  = d ++ drop_duplicates_seen seen rows.
Proof.
  revert d seen. induction rows as [|[k v] rows IH]; intros d seen H.
  - cbn. rewrite app_nil_r. reflexivity.
  - cbn [drop_duplicates_seen fst].
    destruct (existsb (str_eqb k) seen) eqn:E; [apply IH; exact H|].
    cbn [fold_left fst snd]. rewrite dict_set_fresh.
    + rewrite IH; [rewrite <- app_assoc; reflexivity|].
      intros x Hx. rewrite map_app in Hx. cbn [map fst] in Hx.
      rewrite existsb_snoc in Hx. cbn [existsb] in *.
      apply orb_true_iff in Hx as [Hx|Hx]; [rewrite Hx; reflexivity|].
      rewrite (H x Hx). apply orb_true_r.
    + destruct (existsb (str_eqb k) (map fst d)) eqn:E'; [|reflexivity].
      rewrite (H k E') in E. discriminate.
Qed.

Lemma dict_get_drop_duplicates (rows : list (str * str)) (seen : list str) (k : str) :
  dict_get (drop_duplicates_seen seen rows) k
  = if existsb (str_eqb k) seen then None else option_map snd (first_row k rows).
Proof.
  revert seen. induction rows as [|row rows IH]; intro seen.
  - cbn. destruct (existsb (str_eqb k) seen); reflexivity.
  - cbn [drop_duplicates_seen]. unfold first_row in *. cbn [find].
    destruct (existsb (str_eqb (fst row)) seen) eqn:E.
    + rewrite IH. destruct (existsb (str_eqb k) seen) eqn:Ek; [reflexivity|].
      destruct (str_eqb (fst row) k) eqn:Er; [|reflexivity].
      apply str_eqb_iff in Er. rewrite Er, Ek in E. discriminate.
    + destruct row as [k0 v0]. cbn [dict_get fst] in *. rewrite IH. cbn [existsb].
      rewrite (str_eqb_sym k k0).
      destruct (str_eqb k0 k) eqn:Er; cbn [orb]; [|reflexivity].
      apply str_eqb_iff in Er. subst k0. rewrite E. reflexivity.
Qed.

(** X18: the trend map built from a previous statement is its rows with
    the later duplicates of a Particulars dropped, in their order: the
    ledger of a Particulars is the one of its first row, where the custom
    map of the form takes the last. *)
Theorem trend_map_of_previous_rows (rows : list (str * str)) :
  trend_map_of_rows rows = drop_duplicates rows
  /\ NoDup (map fst (trend_map_of_rows rows))
  /\ forall k, dict_get (trend_map_of_rows rows) k = option_map snd (first_row k rows).
Proof.
  assert (trend_map_of_rows rows = drop_duplicates rows) as H.
  { unfold trend_map_of_rows, dict_of_rows, drop_duplicates.
    rewrite (dict_of_distinct_rows rows [] []); [reflexivity|].
    intros x Hx. exact Hx. }
  rewrite H. split; [reflexivity|]. split.
  - apply drop_duplicates_seen_fresh.
  - intro k. unfold drop_duplicates. rewrite dict_get_drop_duplicates. reflexivity.
Qed.

(** ** Trend maps with cleaned keys *)

Lemma existsb_str_eqb_in (k : str) (l : list str) :
  existsb (str_eqb k) l = true <-> In k l.
Proof.
  rewrite existsb_exists. split.
  - intros [x [Hin Hx]]. apply str_eqb_iff in Hx. subst x. exact Hin.
  - intro Hin. exists k. split; [exact Hin | apply str_eqb_refl].
Qed.

Lemma clean_keys_distinct (trend_map : list (str * str)) :
  NoDup (map (fun item => clean_text (fst item)) trend_map) ->
  forall d,
    (forall item, In item trend_map -> ~ In (clean_text (fst item)) (map fst d)) ->
    fold_left (fun d item => dict_set d (clean_text (fst item)) (snd item)) trend_map d
    = d ++ map (fun item => (clean_text (fst item), snd item)) trend_map.
Proof.
  induction trend_map as [|[k l] tm IH]; intros N d Hd.
  - cbn. rewrite app_nil_r. reflexivity.
  - cbn [map fst] in N. apply NoDup_cons_iff in N as [Hk N].
    cbn [fold_left map fst snd]. rewrite dict_set_fresh.
    + rewrite (IH N); [rewrite <- app_assoc; reflexivity|].
      intros item Hin Hc. rewrite map_app in Hc. cbn [map fst] in Hc.
      apply in_app_or in Hc as [Hc|[Hc|[]]].
      * apply (Hd item); [right; exact Hin | exact Hc].
      * apply Hk. rewrite Hc. apply (in_map (fun i => clean_text (fst i))). exact Hin.
    + destruct (existsb (str_eqb (clean_text k)) (map fst d)) eqn:E; [|reflexivity].
      apply existsb_str_eqb_in in E. exfalso.
      apply (Hd (k, l)); [left; reflexivity | exact E].
Qed.

Section CleanedTrendMap.

Variable partial_ratio : str -> str -> Q.

(** X4: cleaning the narration and the keys of the trend map beforehand
    changes nothing when no two keys clean to the same text:
    [apply_trend_mapping] then sees its inputs only through [clean_text]. *)
Theorem trend_mapping_on_cleaned_inputs (narration : str) (trend_map : list (str * str)) :
  NoDup (map (fun item => clean_text (fst item)) trend_map) ->
  apply_trend_mapping partial_ratio (clean_text narration) (clean_keys trend_map)
  = apply_trend_mapping partial_ratio narration trend_map.
Proof.
  intro N. unfold clean_keys.
  rewrite (clean_keys_distinct trend_map N []) by (intros item _ []).
  cbn [app]. unfold apply_trend_mapping. rewrite trend_fold_cleaned. reflexivity.
Qed.

End CleanedTrendMap.

Lemma trend_mapping_on_cleaned_inputs_witness :
  apply_trend_mapping (fun _ _ => 100) (clean_text (lit "RENT, MAY"))
    (clean_keys [(lit "Rent!", lit "Rent"); (lit "Salary", lit "Income")])
  = apply_trend_mapping (fun _ _ => 100) (lit "RENT, MAY")
      [(lit "Rent!", lit "Rent"); (lit "Salary", lit "Income")].
Proof.
  apply (trend_mapping_on_cleaned_inputs (fun _ _ => 100) (lit "RENT, MAY")
           [(lit "Rent!", lit "Rent"); (lit "Salary", lit "Income")]).
  vm_compute. repeat constructor.
  - intros [H|[]]. discriminate H.
  - intros [].
Defined.

(** Two keys that clean to the same text become one, which has the place
    of the first and the ledger of the last: the result can change. *)
Example cleaned_keys_collide :
  apply_trend_mapping (fun _ _ => 100) (lit "rent")
    [(lit "Rent!", lit "A"); (lit "RENT", lit "B")] = lit "A"
  /\ apply_trend_mapping (fun _ _ => 100) (clean_text (lit "rent"))
       (clean_keys [(lit "Rent!", lit "A"); (lit "RENT", lit "B")]) = lit "B".
Proof. split; reflexivity. Qed.

(** ** The button handler *)

Lemma length_where_nonempty (col other : list str) :
  length col = length other -> length (where_nonempty col other) = length col.
Proof.
  intro H. unfold where_nonempty. rewrite length_map, length_combine, <- H.
  apply Nat.min_id.
Qed.

Lemma map_fst_combine {A B : Type} (l : list A) (l' : list B) :
  length l = length l' -> map fst (combine l l') = l.
Proof.
  revert l'. induction l as [|x l IH]; intros [|y l'] H; try discriminate; [reflexivity|].
  cbn [combine map fst]. f_equal. apply IH. injection H as H. exact H.
Qed.

Lemma form_maps_exclusive (f : form) : form_custom_map f = [] \/ form_trend_map f = [].
Proof.
  unfold form_custom_map, form_trend_map.
  destruct (mapping_choice f); [right | left]; reflexivity.
Qed.

Section HandlerProperties.

Variable partial_ratio : str -> str -> Q.
Variable writable : str -> bool.

Lemma length_ledger_names (mode : mapping_type) (enable_default enable_custom : bool)
    (custom_map trend_map : list (str * str)) (data : list Transaction) :
  length (ledger_names partial_ratio mode enable_default enable_custom
            custom_map trend_map data)
  = length data.
Proof.
  unfold ledger_names. destruct mode.
  - destruct (enable_custom && nonempty custom_map)%bool.
    + rewrite length_where_nonempty;
        destruct enable_default; rewrite ?length_map; reflexivity.
    + destruct enable_default; rewrite ?length_map; reflexivity.
  - destruct (nonempty trend_map); rewrite ?length_map; reflexivity.
Qed.

(** X19: the handler shows a table exactly when [extract_transactions]
    finds a record; the rows of the table are then the records, all of
    them and in order, each with one Ledger Name.  The table is the same
    whatever mapping files exist, and without a table no file is written. *)
Theorem handler_table (pdf : list str) (account_info : account) (f : form) (fs : files) :
  let out := extract_and_apply_mapping partial_ratio writable pdf account_info f fs in
  (fst out = None <-> extract_transactions pdf = [])
  /\ (fst out = None -> snd out = Some fs)
  /\ (forall table, fst out = Some table -> map fst table = extract_transactions pdf)
  /\ (forall fs',
        fst (extract_and_apply_mapping partial_ratio writable pdf account_info f fs')
        = fst out).
Proof.
  unfold extract_and_apply_mapping.
  destruct (extract_transactions pdf) as [|r data] eqn:E; cbn [nonempty fst snd].
  - repeat split; try reflexivity. intros table H. discriminate H.
  - repeat split; try discriminate.
    intros table H. injection H as <-.
    apply (map_fst_combine (r :: data)
             (ledger_names partial_ratio (mapping_choice f)
                (enable_default_mapping f) (enable_custom_mapping f)
                (form_custom_map f) (form_trend_map f) (r :: data))).
    rewrite length_ledger_names. reflexivity.
Qed.

(** X20: when the handler has shown a table and [save_mapping] has not
    failed, the file of the account holds the two maps of the form, of
    which one at least is empty: the trend map under "Custom + Default",
    the custom map under "Trend Mapping".  Accounts that use another file
    find theirs as it was. *)
Theorem handler_saves_form_maps
    (pdf : list str) (account_info : account) (f : form) (fs fs' : files) :
  extract_transactions pdf <> [] ->
  snd (extract_and_apply_mapping partial_ratio writable pdf account_info f fs) = Some fs' ->
  load_mapping account_info fs' = (form_custom_map f, form_trend_map f)
  /\ (form_custom_map f = [] \/ form_trend_map f = [])
  /\ forall other, file_path other <> file_path account_info ->
                   load_mapping other fs' = load_mapping other fs.
Proof.
  intros Hd Hs. unfold extract_and_apply_mapping in Hs.
  destruct (extract_transactions pdf) as [|r data]; [congruence|].
  cbn [nonempty snd] in Hs. unfold save_mapping, write_file in Hs.
  destruct (writable (file_path account_info)); [|discriminate].
  injection Hs as <-. split; [|split].
  - rewrite load_after_write, str_eqb_refl. reflexivity.
  - apply form_maps_exclusive.
  - intros other Ho. rewrite load_after_write.
    destruct (str_eqb (file_path account_info) (file_path other)) eqn:E; [|reflexivity].
    apply str_eqb_iff in E. congruence.
Qed.

End HandlerProperties.

Lemma handler_saves_form_maps_witness :
  load_mapping {| name := lit "Asha Rao"; account_number := lit "00112233" |}
    [(lit "Asha_Rao_2233_mapping.json",
      {| stored_custom_map := [(lit "salary", lit "Income")]; stored_trend_map := [] |})]
  = ([(lit "salary", lit "Income")], []).
Proof.
  apply (fun Hd Hs =>
           proj1 (handler_saves_form_maps (fun _ _ => 0) (fun _ => true)
                    [lit "01-01-24 OPENING 1,000.00Cr"]
                    {| name := lit "Asha Rao"; account_number := lit "00112233" |}
                    {| mapping_choice := Custom_Default_Mapping;
                       enable_default_mapping := true;
                       enable_custom_mapping := true;
                       custom_rows := [(lit "salary", lit "Wages"); (lit "", lit "Rent");
                                       (lit "salary", lit "Income")];
                       previous_rows := None |}
                    [] _ Hd Hs)).
  - vm_compute. discriminate.
  - vm_compute. reflexivity.
Defined.
